(** * Frost crystal growth (FrostCanvas.tsx): model and properties

    The component grows branching line segments from seeds planted by the
    pointer.  This file embeds the growth code of
    [src/components/FrostCanvas.tsx] and proves the properties of its
    specification.

    Numbers.  A finite JavaScript number is a rational.  The arithmetic of
    the growth code ([seedCrystal], [advance]) is modelled as exact rational
    arithmetic on [Q]: an expression of the source denotes its exact value,
    and the rounding of its binary64 result is not modelled; bounds that
    rounding can reach are stated with a margin.  The arithmetic of the pointer handler, whose accumulator
    decides by a comparison whether a seed is planted, is rounded to
    binary64 after each operation ([b64]), as the source does.  [Infinity],
    which the source
    stores in [nextBranchIn], is a value of its own ([Num]).  The host's
    [Math.cos], [Math.sin], [Math.hypot] and [Math.random] are parameters
    of the development; [Math.random] is a sequence of draws read through
    a cursor. *)

From Stdlib Require Import QArith Qround Qminmax Qpower ZArith List Bool String Lia Lqa.
Import ListNotations.
Open Scope Q_scope.

(** ** Numbers *)

(** [a > b] and [a <= b] of the source, as tests. *)
Definition gtb (a b : Q) : bool := negb (Qle_bool a b).
Definition leb (a b : Q) : bool := Qle_bool a b.
Definition geb (a b : Q) : bool := Qle_bool b a.

(** A number that may be [Infinity] (the field [nextBranchIn]). *)
Inductive Num : Type :=
| Fin (q : Q)
| Infinity.

(** [n - s], [n > 0] and [n <= 0] on such a number. *)
Definition Num_sub (n : Num) (s : Q) : Num :=
  match n with
  | Fin q => Fin (q - s)
  | Infinity => Infinity
  end.

Definition Num_pos (n : Num) : bool :=
  match n with
  | Fin q => gtb q 0
  | Infinity => true
  end.

Definition Num_nonpos (n : Num) : bool :=
  match n with
  | Fin q => leb q 0
  | Infinity => false
  end.

(** The same comparisons as propositions. *)
Definition Num_gt0 (n : Num) : Prop :=
  match n with
  | Fin q => 0 < q
  | Infinity => True
  end.

Definition Num_le0 (n : Num) : Prop :=
  match n with
  | Fin q => q <= 0
  | Infinity => False
  end.

(** *** Binary64 rounding

    The result of an arithmetic operation of the source is the exact result
    rounded to the nearest binary64 number, ties to the even significand.
    Overflow to [Infinity] is not modelled: the coordinates and distances
    of a pointer path are far below [2^1024]. *)

(** [floor (log2 q)], for [q > 0]. *)
Definition ilog2 (q : Q) : Z :=
  let l := (Z.log2 (Qnum q) - Z.log2 (Zpos (Qden q)))%Z in
  if Qle_bool (2 ^ l) q then l else (l - 1)%Z.

(** The nearest integer, ties to even. *)
Definition round_even (q : Q) : Z :=
  let f := Qfloor q in
  match Qcompare (q - inject_Z f) (1 # 2) with
  | Lt => f
  | Gt => (f + 1)%Z
  | Eq => if Z.even f then f else (f + 1)%Z
  end.

(** [q > 0] rounded to 53 significant bits, the least exponent being that
    of the subnormal numbers. *)
Definition b64_pos (q : Q) : Q :=
  let e := Z.max (ilog2 q - 52) (-1074) in
  inject_Z (round_even (q / 2 ^ e)) * 2 ^ e.

Definition b64 (q : Q) : Q :=
  match Qnum q with
  | Z0 => 0
  | Zpos _ => b64_pos q
  | Zneg _ => - b64_pos (- q)
  end.

(** [Math.PI]: the binary64 constant, as the rational it denotes. *)
Definition PI : Q := 884279719003555 # 281474976710656.

(** [v.toFixed(2)], as the number the decimal string denotes: the nearest
    multiple of 1/100, ties away from zero. *)
Definition toFixed2 (v : Q) : Q :=
  if Qle_bool 0 v
  then inject_Z (Qfloor (v * 100 + (1 # 2))) / 100
  else - (inject_Z (Qfloor (- v * 100 + (1 # 2))) / 100).

(** ** The drawing surface *)

Inductive Colour : Type :=
| Hex (s : string)
| Rgba (r g b : Z) (a : Q).

Definition Point : Type := (Q * Q)%type.

Module Canvas2D.

Inductive Cap : Type := butt | round | square.

(** The drawing state of a 2D context that the component touches. *)
Record Style : Type := mkStyle {
  strokeStyle : Colour;
  fillStyle : Colour;
  lineWidth : Q;
  lineCap : Cap;
  shadowColor : Colour;
  shadowBlur : Q
}.

(** One stroked straight piece, as it was drawn. *)
Record Segment : Type := mkSegment {
  seg_from : Point;
  seg_to : Point;
  seg_colour : Colour;
  seg_width : Q
}.

Definition Pixels : Type := Z -> Z -> Colour.

(** A canvas with its context: size, pixel buffer, drawing state, the
    stack of [save], the current path, and the record of every piece
    stroked so far (oldest first). *)
Record t : Type := mk {
  width : Z;
  height : Z;
  pixels : Pixels;
  style : Style;
  saved : list Style;
  path : list Point;
  stroked : list Segment
}.

Definition with_style (c : t) (s : Style) : t :=
  mk (width c) (height c) (pixels c) s (saved c) (path c) (stroked c).

Definition with_path (c : t) (p : list Point) : t :=
  mk (width c) (height c) (pixels c) (style c) (saved c) p (stroked c).

Definition set_strokeStyle (v : Colour) (c : t) : t :=
  let s := style c in
  with_style c (mkStyle v (fillStyle s) (lineWidth s) (lineCap s)
                        (shadowColor s) (shadowBlur s)).

Definition set_fillStyle (v : Colour) (c : t) : t :=
  let s := style c in
  with_style c (mkStyle (strokeStyle s) v (lineWidth s) (lineCap s)
                        (shadowColor s) (shadowBlur s)).

Definition set_lineWidth (v : Q) (c : t) : t :=
  let s := style c in
  with_style c (mkStyle (strokeStyle s) (fillStyle s) v (lineCap s)
                        (shadowColor s) (shadowBlur s)).

Definition set_lineCap (v : Cap) (c : t) : t :=
  let s := style c in
  with_style c (mkStyle (strokeStyle s) (fillStyle s) (lineWidth s) v
                        (shadowColor s) (shadowBlur s)).

Definition set_shadowColor (v : Colour) (c : t) : t :=
  let s := style c in
  with_style c (mkStyle (strokeStyle s) (fillStyle s) (lineWidth s)
                        (lineCap s) v (shadowBlur s)).

Definition set_shadowBlur (v : Q) (c : t) : t :=
  let s := style c in
  with_style c (mkStyle (strokeStyle s) (fillStyle s) (lineWidth s)
                        (lineCap s) (shadowColor s) v).

Definition beginPath (c : t) : t := with_path c [].
Definition moveTo (px py : Q) (c : t) : t := with_path c [(px, py)].
Definition lineTo (px py : Q) (c : t) : t := with_path c (path c ++ [(px, py)]).

(** The straight pieces of a path, drawn with the current stroke style. *)
Fixpoint pieces (s : Style) (p : list Point) : list Segment :=
  match p with
  | a :: ((b :: _) as rest) =>
      mkSegment a b (strokeStyle s) (lineWidth s) :: pieces s rest
  | _ => []
  end.

Definition save (c : t) : t :=
  mk (width c) (height c) (pixels c) (style c) (style c :: saved c)
     (path c) (stroked c).

Definition restore (c : t) : t :=
  match saved c with
  | [] => c
  | s :: rest =>
      mk (width c) (height c) (pixels c) s rest (path c) (stroked c)
  end.

Definition inside (x0 y0 w h px py : Z) : bool :=
  ((x0 <=? px) && (px <? x0 + w) && (y0 <=? py) && (py <? y0 + h))%Z.

(** [fillRect]: the pixels of the rectangle take the fill colour (the
    fill colours of this program are opaque); the others are kept. *)
Definition fillRect (x0 y0 w h : Z) (c : t) : t :=
  mk (width c) (height c)
     (fun px py =>
        if inside x0 y0 w h px py then fillStyle (style c)
        else pixels c px py)
     (style c) (saved c) (path c) (stroked c).

Section Stroke.

(** How a stroked path changes the pixels is the host's business. *)
Variable rasterize : Style -> list Point -> Pixels -> Pixels.

Definition stroke (c : t) : t :=
  mk (width c) (height c) (rasterize (style c) (path c) (pixels c))
     (style c) (saved c) (path c)
     (stroked c ++ pieces (style c) (path c)).

End Stroke.

(** Context state of a new canvas. *)
Definition default_style : Style :=
  mkStyle (Hex "#000000") (Hex "#000000") 1 butt (Rgba 0 0 0 0) 0.

End Canvas2D.

(** ** The branch *)

(** [oid] is the identity of the object (its allocation number, see
    [new]); the other fields are those of the source's interface. *)
Record Branch : Type := mkBranch {
  oid : nat;
  x : Q;                (* current tip x *)
  y : Q;                (* current tip y *)
  angle : Q;            (* current direction *)
  curlRate : Q;         (* angle change per pixel *)
  remaining : Q;        (* pixels left to grow *)
  nextBranchIn : Num;   (* pixels until next child spawn *)
  alpha : Q;
  lineWidth : Q;
  depth : Z             (* levels of recursion left *)
}.

Definition GROW_SPEED : Q := 7.
Definition SPAWN_DIST : Q := 13.
Definition MAX_DEPTH : Z := 4.
Definition BG : Colour := Hex "#000b18".

(** ** The heap: the random cursor and the branches allocated *)

(** [draws] counts the calls of [Math.random] so far.  [born] records
    every branch object at the moment its literal was evaluated, newest
    first; it is not read by the program. *)
Record Heap : Type := mkHeap {
  draws : nat;
  born : list Branch
}.

Definition M (A : Type) : Type := Heap -> A * Heap.

Definition ret {A : Type} (a : A) : M A := fun h => (a, h).

Definition bind {A B : Type} (m : M A) (k : A -> M B) : M B :=
  fun h => let (a, h') := m h in k a h'.

Notation "x <- m ;; k" := (bind m (fun x => k))
  (at level 61, m at next level, right associativity).
Notation "' pat <- m ;; k" := (bind m (fun x => match x with pat => k end))
  (at level 61, pat pattern, m at next level, right associativity).

(** A branch object literal: a new object, whose identity is the number
    of objects allocated before it. *)
Definition new (lit : nat -> Branch) : M Branch :=
  fun h => let b := lit (List.length (born h)) in
           (b, mkHeap (draws h) (b :: born h)).

(** In-place updates of a branch. *)
Definition moved (b : Branch) (s nx ny newAngle : Q) : Branch :=
  mkBranch (oid b) nx ny newAngle (curlRate b) (remaining b - s)
           (Num_sub (nextBranchIn b) s) (alpha b) (lineWidth b) (depth b).

Definition set_nextBranchIn (b : Branch) (n : Num) : Branch :=
  mkBranch (oid b) (x b) (y b) (angle b) (curlRate b) (remaining b) n
           (alpha b) (lineWidth b) (depth b).

(** ** The component's state *)

(** The refs of [FrostCanvas], with the heap.  [planted] records the calls
    of [plant], newest first; it is not read by the program. *)
Record Frost : Type := mkFrost {
  canvasRef : option Canvas2D.t;
  branches : list Branch;
  drawing : bool;
  lastPos : option Point;
  distAcc : Q;
  heap : Heap;
  planted : list Point
}.

(** ** A sample host

    Fixed-point approximations of the cosine, the sine and the Euclidean
    norm, a sequence of draws in [0, 1) and a rasterizer that marks the
    pixels under the points of a path: a host on which every definition
    above evaluates. *)

Definition fix10 (q : Q) : Q := Qfloor (q * 1024) # 1024.

Definition cos_fix (q : Q) : Q :=
  let t := fix10 q in fix10 (1 - t * t / 2 + t * t * t * t / 24).

Definition sin_fix (q : Q) : Q :=
  let t := fix10 q in fix10 (t - t * t * t / 6 + t * t * t * t * t / 120).

Definition hypot_fix (a b : Q) : Q :=
  let q := Qred (a * a + b * b) in
  Z.sqrt (Qnum q * Zpos (Qden q) * 4 ^ 26) # (Qden q * 2 ^ 26).

Definition lcg (n : nat) : Q := ((Z.of_nat n * 37 + 11) mod 100) # 100.

Definition plot (s : Canvas2D.Style) (p : list Point) (old : Canvas2D.Pixels)
  : Canvas2D.Pixels :=
  fun px py =>
    if existsb (fun pt => (Qfloor (fst pt) =? px)%Z && (Qfloor (snd pt) =? py)%Z) p
    then Canvas2D.strokeStyle s
    else old px py.

(** A branch to try [advance] on, with [left] pixels to grow, and a
    small canvas. *)
Definition twig (left : Q) : Branch :=
  mkBranch 0 0 0 0 0.01 left (Fin 3) 0.88 1.5 MAX_DEPTH.

Definition blank : Canvas2D.t :=
  Canvas2D.mk 4 4 (fun _ _ => BG) Canvas2D.default_style [] [] [].

(** A compositing of translucent pixels. *)
Definition blend_fix (src dst : Colour) : Colour := src.

Section Growth.

(** The host's mathematics, random draws and rasterizer. *)
Variable cos sin : Q -> Q.
Variable hypot : Q -> Q -> Q.
Variable rnd : nat -> Q.
Variable rasterize :
  Canvas2D.Style -> list Point -> Canvas2D.Pixels -> Canvas2D.Pixels.

(** [Math.random()] *)
Definition random : M Q :=
  fun h => (rnd (draws h), mkHeap (S (draws h)) (born h)).

(** *** seedCrystal *)

(** The body of the loop [for (let i = 0; i < numArms; i++)], for the
    [n] iterations left from [i]. *)
Fixpoint arms (x0 y0 : Q) (numArms : Z) (n : nat) (i : Z) : M (list Branch) :=
  match n with
  | O => ret []
  | S n' =>
      r1 <- random ;;
      let angle := inject_Z i / inject_Z numArms * PI * 2 + (r1 - 0.5) * 0.5 in
      r2 <- random ;;
      let curlSign : Q := if gtb r2 0.5 then 1 else -1 in
      r3 <- random ;;
      let length := 55 + r3 * 70 in
      r4 <- random ;;
      r5 <- random ;;
      b <- new (fun o =>
                  mkBranch o x0 y0 angle (curlSign * (0.018 + r4 * 0.022))
                           length (Fin (length * (0.22 + r5 * 0.2)))
                           0.88 1.5 MAX_DEPTH) ;;
      rest <- arms x0 y0 numArms n' (i + 1)%Z ;;
      ret (b :: rest)
  end.

Definition seedCrystal (x0 y0 : Q) : M (list Branch) :=
  r <- random ;;
  let numArms := (3 + Qfloor (r * 4))%Z in
  arms x0 y0 numArms (Z.to_nat numArms) 0%Z.

(** *** advance *)

(** The loop [for (const side of sides)] over the post-step parent [b]. *)
Fixpoint sprout (b : Branch) (sides : list Q) : M (list Branch) :=
  match sides with
  | [] => ret []
  | side :: more =>
      r1 <- random ;;
      let spread := PI / 3 + (r1 - 0.5) * 0.55 in
      r2 <- random ;;
      let childLen := remaining b * (0.48 + r2 * 0.22) in
      r3 <- random ;;
      r4 <- random ;;
      c <- new (fun o =>
                  mkBranch o (x b) (y b) (angle b + side * spread)
                           ((r3 - 0.5) * 0.042) childLen
                           (Fin (childLen * (0.28 + r4 * 0.32)))
                           (alpha b * 0.72) (lineWidth b * 0.62)
                           (depth b - 1)%Z) ;;
      rest <- sprout b more ;;
      ret (c :: rest)
  end.

(** The drawing part of [advance]: one segment from the old tip. *)
Definition draw (b : Branch) (nx ny : Q) (ctx : Canvas2D.t) : Canvas2D.t :=
  let ctx := Canvas2D.beginPath ctx in
  let ctx := Canvas2D.moveTo (x b) (y b) ctx in
  let ctx := Canvas2D.lineTo nx ny ctx in
  let ctx := Canvas2D.set_strokeStyle (Rgba 210 235 255 (toFixed2 (alpha b))) ctx in
  let ctx := Canvas2D.set_lineWidth (lineWidth b) ctx in
  Canvas2D.stroke rasterize ctx.

(** [advance(b, step, ctx)]: the branch and the context are changed in
    place, so both are returned with the children. *)
Definition advance (b : Branch) (step : Q) (ctx : Canvas2D.t)
  : M (Branch * Canvas2D.t * list Branch) :=
  let s := Qmin step (remaining b) in
  if leb s 0 then ret (b, ctx, []) else
  let newAngle := angle b + curlRate b * s in
  let midAngle := (angle b + newAngle) / 2 in
  let nx := x b + cos midAngle * s in
  let ny := y b + sin midAngle * s in
  let ctx := draw b nx ny ctx in
  let prevNext := nextBranchIn b in
  let b := moved b s nx ny newAngle in
  if Num_pos prevNext && Num_nonpos (nextBranchIn b)
     && (1 <? depth b)%Z && gtb (remaining b) 6
  then
    r <- random ;;
    let bilateral := gtb r 0.25 in
    sides <- (if bilateral then ret [-1; 1]
              else r' <- random ;; ret [if gtb r' 0.5 then 1 else -1]) ;;
    children <- sprout b sides ;;
    next <- (if gtb (remaining b) 14
             then r'' <- random ;; ret (Fin (remaining b * (0.35 + r'' * 0.35)))
             else ret Infinity) ;;
    ret (set_nextBranchIn b next, ctx, children)
  else ret (b, ctx, []).

(** *** The animation loop *)

(** The loop [for (const b of branches.current)] of [tick], with the
    arrays [keep] and [spawned] it fills. *)
Fixpoint each_branch (bs keep spawned : list Branch) (ctx : Canvas2D.t)
  : M (list Branch * list Branch * Canvas2D.t) :=
  match bs with
  | [] => ret (keep, spawned, ctx)
  | b :: rest =>
      ' (b', ctx', children) <- advance b GROW_SPEED ctx ;;
      let spawned := spawned ++ children in
      let keep := if gtb (remaining b') 0 then keep ++ [b'] else keep in
      each_branch rest keep spawned ctx'
  end.

(** One call of [tick] (the scheduling of the next one apart).  Without
    a canvas the effect returns before it starts the loop. *)
Definition tick (st : Frost) : Frost :=
  match canvasRef st with
  | None => st
  | Some ctx =>
      if (0 <? List.length (branches st))%nat then
        let ctx := Canvas2D.set_lineCap Canvas2D.round ctx in
        let ctx := Canvas2D.set_shadowColor (Rgba 130 195 255 0.45) ctx in
        let ctx := Canvas2D.set_shadowBlur 3.5 ctx in
        let '(keep, spawned, ctx, h) :=
          each_branch (branches st) [] [] ctx (heap st) in
        mkFrost (Some ctx) (keep ++ spawned) (drawing st) (lastPos st)
                (distAcc st) h (planted st)
      else st
  end.

(** *** Planting and the pointer handlers *)

Definition plant (px py : Q) (st : Frost) : Frost :=
  let (seeds, h) := seedCrystal px py (heap st) in
  mkFrost (canvasRef st) (branches st ++ seeds) (drawing st) (lastPos st)
          (distAcc st) h ((px, py) :: planted st).

Definition handleDown (px py : Q) (st : Frost) : Frost :=
  plant px py
    (mkFrost (canvasRef st) (branches st) true (Some (px, py)) 0
             (heap st) (planted st)).

(** The accumulator of [handleMove] after its [+=], from the last
    position [lp]; the two differences and the sum are rounded. *)
Definition bumped (st : Frost) (lp : Point) (px py : Q) : Q :=
  let dx := b64 (px - fst lp) in
  let dy := b64 (py - snd lp) in
  b64 (distAcc st + hypot dx dy).

Definition handleMove (px py : Q) (st : Frost) : Frost :=
  match drawing st, lastPos st with
  | true, Some lp =>
      let acc := bumped st lp px py in
      let st := mkFrost (canvasRef st) (branches st) (drawing st)
                        (lastPos st) acc (heap st) (planted st) in
      let st :=
        if geb (distAcc st) SPAWN_DIST then
          let st := plant px py st in
          mkFrost (canvasRef st) (branches st) (drawing st) (lastPos st)
                  0 (heap st) (planted st)
        else st in
      mkFrost (canvasRef st) (branches st) (drawing st) (Some (px, py))
              (distAcc st) (heap st) (planted st)
  | _, _ => st
  end.

Definition handleUp (st : Frost) : Frost :=
  mkFrost (canvasRef st) (branches st) false None (distAcc st) (heap st)
          (planted st).

(** *** Clear *)

Definition clear (st : Frost) : Frost :=
  match canvasRef st with
  | None => st
  | Some canvas =>
      let ctx := Canvas2D.save canvas in
      let ctx := Canvas2D.set_shadowBlur 0 ctx in
      let ctx := Canvas2D.set_fillStyle BG ctx in
      let ctx := Canvas2D.fillRect 0 0 (Canvas2D.width canvas)
                                   (Canvas2D.height canvas) ctx in
      let ctx := Canvas2D.restore ctx in
      mkFrost (Some ctx) [] (drawing st) (lastPos st) (distAcc st)
              (heap st) (planted st)
  end.

(** *** Events *)

(** What can happen to the mounted component, and a run of events. *)
Inductive Event : Type :=
| Tick
| Down (px py : Q)
| Move (px py : Q)
| Up
| Clear.

Definition step (e : Event) (st : Frost) : Frost :=
  match e with
  | Tick => tick st
  | Down px py => handleDown px py st
  | Move px py => handleMove px py st
  | Up => handleUp st
  | Clear => clear st
  end.

Definition run (es : list Event) (st : Frost) : Frost :=
  fold_left (fun s e => step e s) es st.

(** [n] frames in a row. *)
Definition frames (n : nat) (st : Frost) : Frost := Nat.iter n tick st.

(** The component after its canvas of [w] by [h] pixels is set up: the
  surface is filled with [BG], nothing grows, nothing was drawn. *)
Definition mounted (w h : Z) : Frost :=
let canvas :=
  Canvas2D.mk w h (fun _ _ => Rgba 0 0 0 0) Canvas2D.default_style [] [] [] in
let ctx := Canvas2D.set_fillStyle BG canvas in
let ctx := Canvas2D.fillRect 0 0 w h ctx in
mkFrost (Some ctx) [] false None 0 (mkHeap 0 []) [].


(** ** Notions of the specification *)

(** The effective step [s] of [advance]. *)
Definition effective (b : Branch) (step : Q) : Q := Qmin step (remaining b).

(** The branch as the step leaves it, before any fork: untouched when the
    effective step is not positive. *)
Definition stepped (b : Branch) (step : Q) : Branch :=
  let s := effective b step in
  if leb s 0 then b else
  let newAngle := angle b + curlRate b * s in
  let midAngle := (angle b + newAngle) / 2 in
  moved b s (x b + cos midAngle * s) (y b + sin midAngle * s) newAngle.

(** The fork check, on the countdown before the step and the branch after. *)
Definition fork_due (prevNext : Num) (b : Branch) : Prop :=
  Num_gt0 prevNext /\ Num_le0 (nextBranchIn b) /\ (1 < depth b)%Z
  /\ 6 < remaining b.

(** A branch that the loop keeps. *)
Definition alive (b : Branch) : bool := gtb (remaining b) 0.

(** Every branch of a collection advanced once, in order, by the growth
    distance of a frame: the branches as the calls leave them, each with
    the children its call returned. *)
Fixpoint advance_all (bs : list Branch) (ctx : Canvas2D.t)
  : M (list (Branch * list Branch) * Canvas2D.t) :=
  match bs with
  | [] => ret ([], ctx)
  | b :: rest =>
      ' (b', ctx', children) <- advance b GROW_SPEED ctx ;;
      ' (rs, ctx'') <- advance_all rest ctx' ;;
      ret ((b', children) :: rs, ctx'')
  end.

(** [m] calls of [advance] in a row on one branch, by the growth distance
    of a frame (the children set aside): the life of a branch over [m]
    frames. *)
Fixpoint advance_times (m : nat) (b : Branch) (ctx : Canvas2D.t)
  : M (Branch * Canvas2D.t) :=
  match m with
  | O => ret (b, ctx)
  | S m' =>
      ' (b', ctx', _) <- advance b GROW_SPEED ctx ;;
      advance_times m' b' ctx'
  end.

(** The drawing state that [tick] sets once per frame. *)
Definition frost_style (ctx : Canvas2D.t) : Canvas2D.t :=
  Canvas2D.set_shadowBlur 3.5
    (Canvas2D.set_shadowColor (Rgba 130 195 255 0.45)
       (Canvas2D.set_lineCap Canvas2D.round ctx)).

(** The identities of the branches of a collection. *)
Definition oids (bs : list Branch) : list nat := map oid bs.

(** The number of segments drawn so far. *)
Definition segments (st : Frost) : nat :=
  match canvasRef st with
  | Some c => List.length (Canvas2D.stroked c)
  | None => O
  end.

(** [ceil(length / GROW_SPEED)] for a branch, and its sum over branches. *)
Definition due (b : Branch) : Z := Qceiling (remaining b / GROW_SPEED).

Definition total_due (bs : list Branch) : Z :=
  fold_right (fun b acc => (due b + acc)%Z) 0%Z bs.

(** The distance from [lp] to [p], as the handler measures it. *)
Definition stride (lp p : Point) : Q :=
  hypot (b64 (fst p - fst lp)) (b64 (snd p - snd lp)).

(** The distance of a pointer path from [lp] through [moves]: the sum of
    its strides. *)
Fixpoint travelled (lp : Point) (moves : list Point) : Q :=
  match moves with
  | [] => 0
  | p :: more => stride lp p + travelled p more
  end.

(** The accumulated distance crosses the threshold exactly at sampled
    points: at every move the accumulator is the distance accumulated
    since the last seed (its sum is a binary64 number, so that the [+=] of
    the handler does not round), and it stays below the threshold or lands
    on it. *)
Fixpoint hits_exactly (acc : Q) (lp : Point) (moves : list Point) : Prop :=
  match moves with
  | [] => True
  | p :: more =>
      let a := b64 (acc + stride lp p) in
      a == acc + stride lp p
      /\ ((a < SPAWN_DIST /\ hits_exactly a p more)
          \/ (a == SPAWN_DIST /\ hits_exactly 0 p more))
  end.



(** Two canvases show the same picture and are in the same state. *)
Definition same_canvas (c1 c2 : Canvas2D.t) : Prop :=
  Canvas2D.width c1 = Canvas2D.width c2
  /\ Canvas2D.height c1 = Canvas2D.height c2
  /\ (forall px py, Canvas2D.pixels c1 px py = Canvas2D.pixels c2 px py)
  /\ Canvas2D.style c1 = Canvas2D.style c2
  /\ Canvas2D.saved c1 = Canvas2D.saved c2
  /\ Canvas2D.path c1 = Canvas2D.path c2
  /\ Canvas2D.stroked c1 = Canvas2D.stroked c2.

(** Two states of the component that cannot be told apart. *)
Definition same_state (s1 s2 : Frost) : Prop :=
  match canvasRef s1, canvasRef s2 with
  | Some c1, Some c2 => same_canvas c1 c2
  | None, None => True
  | _, _ => False
  end
  /\ branches s1 = branches s2
  /\ drawing s1 = drawing s2
  /\ lastPos s1 = lastPos s2
  /\ distAcc s1 = distAcc s2
  /\ heap s1 = heap s2
  /\ planted s1 = planted s2.

(** Every pixel of the surface has the base colour. *)
Definition all_BG (c : Canvas2D.t) : Prop :=
  forall px py, (0 <= px < Canvas2D.width c)%Z ->
                (0 <= py < Canvas2D.height c)%Z ->
                Canvas2D.pixels c px py = BG.

(** *** Notions used in the proofs *)

(** What a child takes from its parent [p] (the branch after its step). *)
Definition child_of (p c : Branch) : Prop :=
  x c = x p /\ y c = y p
  /\ depth c = (depth p - 1)%Z
  /\ alpha c = alpha p * 0.72
  /\ lineWidth c = lineWidth p * 0.62
  /\ exists k, remaining c = remaining p * (0.48 + rnd k * 0.22).

(** The rescheduled countdown of a parent with [left] pixels to go. *)
Definition rescheduled (left : Q) (n : Num) : Prop :=
  (left <= 14 /\ n = Infinity)
  \/ (14 < left /\ exists k, n = Fin (left * (0.35 + rnd k * 0.35))).

(** The parts of the outcome of a call of [advance]. *)
Definition branch_after (b : Branch) (step : Q) (ctx : Canvas2D.t) (h : Heap)
  : Branch := fst (fst (fst (advance b step ctx h))).

Definition canvas_after (b : Branch) (step : Q) (ctx : Canvas2D.t) (h : Heap)
  : Canvas2D.t := snd (fst (fst (advance b step ctx h))).

Definition children (b : Branch) (step : Q) (ctx : Canvas2D.t) (h : Heap)
  : list Branch := snd (fst (advance b step ctx h)).

Definition heap_after (b : Branch) (step : Q) (ctx : Canvas2D.t) (h : Heap)
  : Heap := snd (advance b step ctx h).

(** What a root branch of a seed planted at [(x0, y0)] looks like. *)
Definition arm_of (x0 y0 : Q) (b : Branch) : Prop :=
  x b = x0 /\ y b = y0 /\ depth b = MAX_DEPTH
  /\ alpha b = 0.88 /\ lineWidth b = 1.5
  /\ exists k, remaining b = 55 + rnd k * 70.

(** From [st] to [st'] the collection keeps some of its branches and gains
    newly allocated ones. *)
Definition grows (st st' : Frost) : Prop :=
  exists kept new,
    branches st' = kept ++ new
    /\ incl (oids kept) (oids (branches st))
    /\ (NoDup (oids (branches st)) -> NoDup (oids kept))
    /\ oids new = seq (List.length (born (heap st))) (List.length new)
    /\ born (heap st') = rev new ++ born (heap st)
    /\ (canvasRef st <> None -> canvasRef st' <> None).

(** A state whose branches are distinct objects, all allocated. *)
Definition wf (st : Frost) : Prop :=
  canvasRef st <> None
  /\ NoDup (oids (branches st))
  /\ Forall (fun i => (i < List.length (born (heap st)))%nat)
            (oids (branches st)).

(** The object [i] was allocated and is not in the collection. *)
Definition gone (i : nat) (st : Frost) : Prop :=
  ~ In i (oids (branches st))
  /\ (i < List.length (born (heap st)))%nat.

(** The move events through the points of a path. *)
Definition moves_of (ps : list Point) : list Event :=
  map (fun p => Move (fst p) (snd p)) ps.

(** The account of a run: the segments drawn so far and what the live
    branches still have due make what all branches ever created had due
    at their creation. *)
Definition balanced (st : Frost) : Prop :=
  canvasRef st <> None
  /\ Forall (fun b => 0 < remaining b) (branches st)
  /\ (Z.of_nat (segments st) + total_due (branches st)
      = total_due (born (heap st)))%Z.

(** ** The resize handler *)

(** The host's compositing of a translucent pixel over another. *)
Variable blend : Colour -> Colour -> Colour.

(** A pixel that hides what is under it, and one that shows it as it is. *)
Definition opaque (c : Colour) : bool :=
  match c with
  | Hex _ => true
  | Rgba _ _ _ a => geb a 1
  end.

Definition transparent (c : Colour) : bool :=
  match c with
  | Hex _ => false
  | Rgba _ _ _ a => leb a 0
  end.

(** Source-over compositing of one pixel. *)
Definition over (src dst : Colour) : Colour :=
  if opaque src then src
  else if transparent src then dst
  else blend src dst.

(** A canvas whose [width] and [height] were just set: a transparent
    bitmap and a context in its default state.  The record of what was
    stroked is kept. *)
Definition reset_canvas (w h : Z) (log : list Canvas2D.Segment) : Canvas2D.t :=
  Canvas2D.mk w h (fun _ _ => Rgba 0 0 0 0) Canvas2D.default_style [] [] log.

(** [dst.drawImage(src, 0, 0)] with no shadow set on [dst]. *)
Definition drawImage (src dst : Canvas2D.t) : Canvas2D.t :=
  Canvas2D.mk (Canvas2D.width dst) (Canvas2D.height dst)
    (fun px py =>
       if Canvas2D.inside 0 0 (Canvas2D.width src) (Canvas2D.height src) px py
       then over (Canvas2D.pixels src px py) (Canvas2D.pixels dst px py)
       else Canvas2D.pixels dst px py)
    (Canvas2D.style dst) (Canvas2D.saved dst) (Canvas2D.path dst)
    (Canvas2D.stroked dst).

(** [onResize], for a window of [innerWidth] by [innerHeight].  The
    listener exists only with a canvas; [drawImage] throws on a source
    canvas without width or height, before anything is changed. *)
Definition onResize (innerWidth innerHeight : Z) (st : Frost) : Frost :=
  match canvasRef st with
  | None => st
  | Some canvas =>
      if ((Canvas2D.width canvas <=? 0) || (Canvas2D.height canvas <=? 0))%Z
      then st
      else
        let tmp := reset_canvas (Canvas2D.width canvas) (Canvas2D.height canvas) [] in
        let tmp := drawImage canvas tmp in
        let c := reset_canvas innerWidth innerHeight (Canvas2D.stroked canvas) in
        let c := Canvas2D.set_fillStyle BG c in
        let c := Canvas2D.fillRect 0 0 (Canvas2D.width c) (Canvas2D.height c) c in
        let c := drawImage tmp c in
        mkFrost (Some c) (branches st) (drawing st) (lastPos st) (distAcc st)
                (heap st) (planted st)
  end.

(** ** Further notions *)

(** The branch after [m] calls of [advance] in a row. *)
Definition grown (m : nat) (b : Branch) (ctx : Canvas2D.t) (h : Heap) : Branch :=
  fst (fst (advance_times m b ctx h)).

(** The pointer events, and those that plant nothing once the pointer is
    up. *)
Definition pointer_event (e : Event) : Prop :=
  match e with
  | Down _ _ | Move _ _ | Up => True
  | Tick | Clear => False
  end.

Definition idle_event (e : Event) : Prop :=
  match e with
  | Move _ _ | Up => True
  | Tick | Down _ _ | Clear => False
  end.

(** The ranges that the branches of a crystal stay in. *)
Definition in_ranges (b : Branch) : Prop :=
  0 < remaining b /\ remaining b < 125
  /\ (1 <= depth b <= MAX_DEPTH)%Z
  /\ 0 < alpha b /\ alpha b <= 0.88
  /\ 0 < lineWidth b /\ lineWidth b <= 1.5.

(** The pointer state of a state the component can be in. *)
Definition steady (st : Frost) : Prop :=
  0 <= distAcc st /\ distAcc st < SPAWN_DIST
  /\ (drawing st = true -> lastPos st <> None).

(** The canvas state that growing never touches. *)
Definition same_frame (c1 c2 : Canvas2D.t) : Prop :=
  Canvas2D.width c1 = Canvas2D.width c2
  /\ Canvas2D.height c1 = Canvas2D.height c2
  /\ Canvas2D.saved c1 = Canvas2D.saved c2
  /\ Canvas2D.fillStyle (Canvas2D.style c1) = Canvas2D.fillStyle (Canvas2D.style c2)
  /\ Canvas2D.lineCap (Canvas2D.style c1) = Canvas2D.lineCap (Canvas2D.style c2)
  /\ Canvas2D.shadowColor (Canvas2D.style c1) = Canvas2D.shadowColor (Canvas2D.style c2)
  /\ Canvas2D.shadowBlur (Canvas2D.style c1) = Canvas2D.shadowBlur (Canvas2D.style c2).

(** ** Comparisons *)

Lemma gtb_true (a b : Q) : gtb a b = true <-> b < a.
Proof.
unfold gtb. rewrite negb_true_iff, <- not_true_iff_false, Qle_bool_iff.
split; [apply Qnot_le_lt | apply Qlt_not_le].
Qed.

Lemma gtb_false (a b : Q) : gtb a b = false <-> a <= b.
Proof.
unfold gtb. rewrite negb_false_iff. apply Qle_bool_iff.
Qed.

Lemma leb_true (a b : Q) : leb a b = true <-> a <= b.
Proof. apply Qle_bool_iff. Qed.

Lemma leb_false (a b : Q) : leb a b = false <-> b < a.
Proof.
unfold leb. rewrite <- not_true_iff_false, Qle_bool_iff.
split; [apply Qnot_le_lt | apply Qlt_not_le].
Qed.

Lemma geb_true (a b : Q) : geb a b = true <-> b <= a.
Proof. apply Qle_bool_iff. Qed.

Lemma geb_false (a b : Q) : geb a b = false <-> a < b.
Proof. unfold geb. apply (leb_false b a). Qed.

Lemma Num_pos_iff (n : Num) : Num_pos n = true <-> Num_gt0 n.
Proof. destruct n; simpl; [apply gtb_true | split; auto]. Qed.

Lemma Num_nonpos_iff (n : Num) : Num_nonpos n = true <-> Num_le0 n.
Proof.
  destruct n; simpl; [apply leb_true | split; [discriminate | intros []]].
Qed.

Lemma Qmin_le_r (a b : Q) : Qmin a b <= b.
Proof. apply Q.le_min_r. Qed.

(** Rounding keeps the sign. *)
Lemma round_even_nonneg (q : Q) : 0 <= q -> (0 <= round_even q)%Z.
Proof.
  intro H. unfold round_even.
  assert (Hf : (0 <= Qfloor q)%Z).
  { change 0%Z with (Qfloor 0). now apply Qfloor_resp_le. }
  destruct (Qcompare (q - inject_Z (Qfloor q)) (1 # 2));
    [destruct (Z.even (Qfloor q))| |]; lia.
Qed.

Lemma b64_nonneg (q : Q) : 0 <= q -> 0 <= b64 q.
Proof.
  intro H. unfold b64. destruct q as [n d]. destruct n as [|n|n]; cbn [Qnum].
  - apply Qle_refl.
  - unfold b64_pos.
    set (e := Z.max (ilog2 (Z.pos n # d) - 52) (-1074)).
    assert (He : 0 < 2 ^ e) by (apply Qpower_0_lt; reflexivity).
    apply Qmult_le_0_compat; [|now apply Qlt_le_weak].
    change 0 with (inject_Z 0). rewrite <- Zle_Qle.
    apply round_even_nonneg. apply Qle_shift_div_l; [exact He|].
    rewrite Qmult_0_l. exact H.
  - exfalso. unfold Qle in H. cbn in H. lia.
Qed.


(** ** The heap operations *)

Lemma bind_eq {A B : Type} (m : M A) (k : A -> M B) (h : Heap) :
  bind m k h = k (fst (m h)) (snd (m h)).
Proof. unfold bind. destruct (m h); reflexivity. Qed.

(** ** sprout: the children of one fork *)

Lemma sprout_spec (p : Branch) (sides : list Q) (h : Heap) :
  let r := sprout p sides h in
  List.length (fst r) = List.length sides
  /\ Forall (child_of p) (fst r)
  /\ born (snd r) = rev (fst r) ++ born h
  /\ oids (fst r) = seq (List.length (born h)) (List.length sides).
Proof.
  revert h. induction sides as [|side more IH]; intro h.
  - simpl. repeat split; constructor.
  - cbn -[Qmult Qplus Qminus Qdiv].
    rewrite bind_eq. cbn -[Qmult Qplus Qminus Qdiv].
    match goal with |- context [sprout p more ?h1] =>
      specialize (IH h1); destruct (sprout p more h1) as [rest h2] end.
    cbn -[Qmult Qplus Qminus Qdiv] in *.
    destruct IH as (IH1 & IH2 & IH3 & IH4).
    repeat split.
    + now rewrite IH1.
    + constructor; [|exact IH2].
      unfold child_of; cbn -[Qmult Qplus Qminus Qdiv].
      repeat split. eexists; reflexivity.
    + rewrite IH3, <- app_assoc. reflexivity.
    + f_equal. exact IH4.
Qed.

(** ** advance: its three outcomes *)

Lemma fork_test_iff (prevNext : Num) (b : Branch) :
  Num_pos prevNext && Num_nonpos (nextBranchIn b)
    && (1 <? depth b)%Z && gtb (remaining b) 6 = true
  <-> fork_due prevNext b.
Proof.
  unfold fork_due.
  rewrite !andb_true_iff, Num_pos_iff, Num_nonpos_iff, Z.ltb_lt, gtb_true.
  split; [intros [[[? ?] ?] ?] | intros (? & ? & ? & ?)]; auto.
Qed.

Lemma stepped_idle (b : Branch) (step : Q) :
  effective b step <= 0 -> stepped b step = b.
Proof.
  intro H. unfold stepped. apply leb_true in H. now rewrite H.
Qed.

Lemma advance_idle (b : Branch) (step : Q) (ctx : Canvas2D.t) (h : Heap) :
  effective b step <= 0 -> advance b step ctx h = (b, ctx, [], h).
Proof.
  intro H. unfold advance. fold (effective b step).
  apply leb_true in H. now rewrite H.
Qed.

Lemma advance_cases (b : Branch) (step : Q) (ctx : Canvas2D.t) (h : Heap) :
  let s := effective b step in
  let b1 := stepped b step in
  (s <= 0 /\ advance b step ctx h = (b, ctx, [], h))
  \/ (0 < s /\ ~ fork_due (nextBranchIn b) b1
      /\ advance b step ctx h = (b1, draw b (x b1) (y b1) ctx, [], h))
  \/ (0 < s /\ fork_due (nextBranchIn b) b1
      /\ exists sides h1 next h',
          sides <> [] /\ born h1 = born h
          /\ born h' = born (snd (sprout b1 sides h1))
          /\ rescheduled (remaining b1) next
          /\ advance b step ctx h
             = (set_nextBranchIn b1 next, draw b (x b1) (y b1) ctx,
                fst (sprout b1 sides h1), h')).
Proof.
  intros s b1.
  destruct (leb s 0) eqn:Hs.
  { left. apply leb_true in Hs. split; [exact Hs | now apply advance_idle]. }
  right. pose proof Hs as Hpos. apply leb_false in Hpos.
  assert (Hb1 : b1 = moved b s
                  (x b + cos ((angle b + (angle b + curlRate b * s)) / 2) * s)
                  (y b + sin ((angle b + (angle b + curlRate b * s)) / 2) * s)
                  (angle b + curlRate b * s)).
  { unfold b1, stepped. fold s. now rewrite Hs. }
  unfold advance. fold (effective b step). fold s. rewrite Hs.
  rewrite <- Hb1.
  replace (x b + cos ((angle b + (angle b + curlRate b * s)) / 2) * s)
    with (x b1) by (rewrite Hb1; reflexivity).
  replace (y b + sin ((angle b + (angle b + curlRate b * s)) / 2) * s)
    with (y b1) by (rewrite Hb1; reflexivity).
  destruct (Num_pos (nextBranchIn b) && Num_nonpos (nextBranchIn b1)
            && (1 <? depth b1)%Z && gtb (remaining b1) 6) eqn:Hf.
  - right. apply fork_test_iff in Hf. split; [exact Hpos|]. split; [exact Hf|].
    rewrite bind_eq. cbn [random fst snd].
    destruct (gtb (rnd (draws h)) 0.25) eqn:Hbi.
    + (* both sides *)
      rewrite bind_eq. cbn [ret fst snd]. rewrite bind_eq.
      set (h1 := mkHeap (S (draws h)) (born h)).
      destruct (gtb (remaining b1) 14) eqn:H14.
      * rewrite bind_eq. cbn [random ret fst snd bind].
        exists [-1; 1], h1, (Fin (remaining b1 *
                  (0.35 + rnd (draws (snd (sprout b1 [-1; 1] h1))) * 0.35))),
          (mkHeap (S (draws (snd (sprout b1 [-1; 1] h1))))
                  (born (snd (sprout b1 [-1; 1] h1)))).
        repeat split; try reflexivity; try discriminate.
        right. apply gtb_true in H14. split; [exact H14|]. eexists; reflexivity.
      * rewrite bind_eq. cbn [random ret fst snd bind].
        exists [-1; 1], h1, Infinity, (snd (sprout b1 [-1; 1] h1)).
        repeat split; try reflexivity; try discriminate.
        left. apply gtb_false in H14. split; [exact H14|reflexivity].
    + (* one side *)
      rewrite bind_eq. rewrite (bind_eq random). cbn [random ret fst snd].
      rewrite bind_eq.
      set (h1 := mkHeap (S (S (draws h))) (born h)).
      set (sides := [if gtb (rnd (S (draws h))) 0.5 then 1 else -1]).
      destruct (gtb (remaining b1) 14) eqn:H14.
      * rewrite bind_eq. cbn [random ret fst snd bind].
        exists sides, h1, (Fin (remaining b1 *
                  (0.35 + rnd (draws (snd (sprout b1 sides h1))) * 0.35))),
          (mkHeap (S (draws (snd (sprout b1 sides h1))))
                  (born (snd (sprout b1 sides h1)))).
        repeat split; try reflexivity; try discriminate.
        right. apply gtb_true in H14. split; [exact H14|]. eexists; reflexivity.
      * rewrite bind_eq. cbn [random ret fst snd bind].
        exists sides, h1, Infinity, (snd (sprout b1 sides h1)).
        repeat split; try reflexivity; try discriminate.
        left. apply gtb_false in H14. split; [exact H14|reflexivity].
  - left. split; [exact Hpos|]. split; [|reflexivity].
    intro Hd. apply fork_test_iff in Hd. congruence.
Qed.

Lemma stepped_grow (b : Branch) (step : Q) :
  let s := effective b step in
  0 < s ->
  stepped b step
  = moved b s
      (x b + cos ((angle b + (angle b + curlRate b * s)) / 2) * s)
      (y b + sin ((angle b + (angle b + curlRate b * s)) / 2) * s)
      (angle b + curlRate b * s).
Proof.
  intros s H. unfold stepped. fold s. apply leb_false in H. now rewrite H.
Qed.

Lemma stepped_keeps (b : Branch) (step : Q) :
  oid (stepped b step) = oid b /\ depth (stepped b step) = depth b
  /\ alpha (stepped b step) = alpha b
  /\ lineWidth (stepped b step) = lineWidth b
  /\ curlRate (stepped b step) = curlRate b.
Proof.
  unfold stepped. destruct (leb (effective b step) 0); repeat split.
Qed.

(** Whatever the outcome, the branch after the call is the stepped branch
    with, at most, a new countdown. *)
Lemma branch_after_stepped (b : Branch) (step : Q) (ctx : Canvas2D.t) (h : Heap) :
  exists next,
    branch_after b step ctx h = set_nextBranchIn (stepped b step) next.
Proof.
  unfold branch_after.
  destruct (advance_cases b step ctx h)
    as [[Hs E] | [(Hs & _ & E) | (Hs & _ & sides & h1 & next & h' & _ & _ & _ & _ & E)]];
    rewrite E; cbn [fst snd].
  - exists (nextBranchIn b). rewrite (stepped_idle b step Hs). now destruct b.
  - exists (nextBranchIn (stepped b step)). now destruct (stepped b step).
  - now exists next.
Qed.

Lemma draw_stroked (b : Branch) (nx ny : Q) (ctx : Canvas2D.t) :
  Canvas2D.stroked (draw b nx ny ctx)
  = Canvas2D.stroked ctx
    ++ [Canvas2D.mkSegment (x b, y b) (nx, ny)
          (Rgba 210 235 255 (toFixed2 (alpha b))) (lineWidth b)].
Proof. reflexivity. Qed.

Lemma canvas_after_grow (b : Branch) (step : Q) (ctx : Canvas2D.t) (h : Heap) :
  0 < effective b step ->
  canvas_after b step ctx h
  = draw b (x (stepped b step)) (y (stepped b step)) ctx.
Proof.
  intro Hpos. unfold canvas_after.
  destruct (advance_cases b step ctx h)
    as [[Hs E] | [(Hs & _ & E) | (Hs & _ & sides & h1 & next & h' & _ & _ & _ & _ & E)]];
    rewrite E; cbn [fst snd]; try reflexivity.
  exfalso. apply (Qlt_irrefl 0). eapply Qlt_le_trans; eassumption.
Qed.

Lemma effective_pos (b : Branch) (step : Q) :
  0 < remaining b -> 0 < step -> 0 < effective b step.
Proof. intros. unfold effective. now apply Q.min_glb_lt. Qed.

Lemma branch_after_grow (b : Branch) (step : Q) (ctx : Canvas2D.t) (h : Heap) :
  0 < effective b step ->
  remaining (branch_after b step ctx h) = remaining b - effective b step.
Proof.
  intro Hs. destruct (branch_after_stepped b step ctx h) as [next ->].
  rewrite (stepped_grow b step Hs). reflexivity.
Qed.

(** ** Properties of advance *)

(** C1.  For a branch with [remaining >= 0] and a step size [step >= 0]
    (the frame loop passes [GROW_SPEED]), with [s = min(step, remaining)]:
    after the call of [advance], [remaining] is [>= 0] and has decreased by
    exactly [s]; when [s <= 0] the call changes nothing (branch, canvas and
    heap) and returns no children. *)
Theorem advance_remaining
  (b : Branch) (step : Q) (ctx : Canvas2D.t) (h : Heap) :
  0 <= remaining b -> 0 <= step ->
  let s := effective b step in
  let b' := branch_after b step ctx h in
  0 <= remaining b'
  /\ remaining b' == remaining b - s
  /\ (s <= 0 -> advance b step ctx h = (b, ctx, [], h)).
Proof.
  intros Hrem Hstep s b'.
  assert (Hs0 : 0 <= s) by (unfold s, effective; now apply Q.min_glb).
  assert (Hle : s <= remaining b)
    by (unfold s, effective; apply Qmin_le_r).
  assert (E : remaining b' == remaining b - s).
  { destruct (Qlt_le_dec 0 s) as [Hs | Hs].
    - unfold b', s. rewrite (branch_after_grow b step ctx h Hs). reflexivity.
    - unfold b', branch_after. rewrite (advance_idle b step ctx h Hs).
      cbn [fst]. lra. }
  split; [|split].
  - rewrite E. lra.
  - exact E.
  - apply advance_idle.
Qed.

(** C2.  For a branch with [remaining > 0] and a step size [step > 0]
    (the frame loop passes [GROW_SPEED]), with
    [s = min(step, remaining)]: [advance] stores
    [newAngle = angle + curlRate * s] as the angle, moves the tip by [s]
    along the midpoint angle [(angle + newAngle) / 2], and draws exactly
    one segment, from the old tip to the stored new tip. *)
Theorem advance_tip
  (b : Branch) (step : Q) (ctx : Canvas2D.t) (h : Heap) :
  0 < remaining b -> 0 < step ->
  let s := effective b step in
  let newAngle := angle b + curlRate b * s in
  let midAngle := (angle b + newAngle) / 2 in
  let b' := branch_after b step ctx h in
  angle b' = newAngle
  /\ x b' = x b + cos midAngle * s
  /\ y b' = y b + sin midAngle * s
  /\ Canvas2D.stroked (canvas_after b step ctx h)
     = Canvas2D.stroked ctx
       ++ [Canvas2D.mkSegment (x b, y b) (x b', y b')
             (Rgba 210 235 255 (toFixed2 (alpha b))) (lineWidth b)].
Proof.
  intros Hrem Hstep s newAngle midAngle b'.
  pose proof (effective_pos b step Hrem Hstep) as Hs. fold s in Hs.
  assert (Hb' : exists next, b' = set_nextBranchIn (stepped b step) next)
    by apply branch_after_stepped.
  destruct Hb' as [next Hb']. rewrite Hb'.
  rewrite (canvas_after_grow b step ctx h Hs), draw_stroked.
  rewrite (stepped_grow b step Hs). repeat split.
Qed.

(** C3.  A call of [advance] returns children if and only if the fork
    countdown was positive before the step and is [<= 0] after it, and
    [depth > 1], and [remaining > 6] after the step; with [depth <= 1] it
    returns none. *)
Theorem advance_forks
  (b : Branch) (step : Q) (ctx : Canvas2D.t) (h : Heap) :
  (children b step ctx h <> []
   <-> Num_gt0 (nextBranchIn b)
       /\ Num_le0 (nextBranchIn (stepped b step))
       /\ (1 < depth b)%Z
       /\ 6 < remaining (branch_after b step ctx h))
  /\ ((depth b <= 1)%Z -> children b step ctx h = []).
Proof.
  assert (Hrem : remaining (branch_after b step ctx h)
                 = remaining (stepped b step)).
  { destruct (branch_after_stepped b step ctx h) as [next ->]. reflexivity. }
  assert (Hdep : depth (stepped b step) = depth b) by apply stepped_keeps.
  assert (Hiff : children b step ctx h <> []
                 <-> fork_due (nextBranchIn b) (stepped b step)).
  { unfold children.
    destruct (advance_cases b step ctx h)
      as [[Hs E] | [(Hs & Hn & E) | (Hs & Hf & sides & h1 & next & h' & Hne & _ & _ & _ & E)]];
      rewrite E; cbn [fst snd].
    - split; [congruence|]. rewrite (stepped_idle b step Hs).
      intros (Hp & Hq & _). exfalso.
      destruct (nextBranchIn b); cbn [Num_gt0 Num_le0] in Hp, Hq;
        [lra | exact Hq].
    - split; [congruence | intro; contradiction].
    - split; [intros _; exact Hf|]. intros _ Hnil.
      pose proof (sprout_spec (stepped b step) sides h1) as (Hlen & _).
      rewrite Hnil in Hlen. destruct sides; [congruence | discriminate]. }
  split.
  - rewrite Hiff. unfold fork_due. rewrite Hrem, Hdep. reflexivity.
  - intro Hd. destruct (children b step ctx h) as [|c l]; [reflexivity|].
    exfalso. assert (Hne : c :: l <> []) by discriminate.
    apply Hiff in Hne. destruct Hne as (_ & _ & Hlt & _). lia.
Qed.

(** C4.  Every child returned by [advance] has the depth of its parent
    less one, the parent's alpha times 0.72 and the parent's line width
    times 0.62, both smaller than the parent's when those are positive,
    and starts at the parent's tip after the step. *)
Theorem advance_children
  (b : Branch) (step : Q) (ctx : Canvas2D.t) (h : Heap) :
  let b' := branch_after b step ctx h in
  depth b' = depth b
  /\ Forall (fun c =>
       depth c = (depth b' - 1)%Z
       /\ alpha c = alpha b' * 0.72
       /\ lineWidth c = lineWidth b' * 0.62
       /\ (0 < alpha b' -> alpha c < alpha b')
       /\ (0 < lineWidth b' -> lineWidth c < lineWidth b')
       /\ x c = x b' /\ y c = y b')
     (children b step ctx h).
Proof.
  intro b'.
  destruct (branch_after_stepped b step ctx h) as [next Hb'].
  fold b' in Hb'.
  split.
  { rewrite Hb'. cbn [depth set_nextBranchIn]. apply stepped_keeps. }
  unfold children.
  destruct (advance_cases b step ctx h)
    as [[Hs E] | [(Hs & Hn & E) | (Hs & Hf & sides & h1 & nx & h' & Hne & _ & _ & _ & E)]];
    rewrite E; cbn [fst snd]; try constructor.
  pose proof (sprout_spec (stepped b step) sides h1) as (_ & Hall & _).
  cbn zeta in Hall. eapply Forall_impl; [|exact Hall].
  intros c (Hx & Hy & Hd & Ha & Hw & _).
  rewrite Hb'. cbn [depth alpha lineWidth x y set_nextBranchIn].
  rewrite Hd, Ha, Hw, Hx, Hy.
  repeat split; intros; lra.
Qed.

(** ** seedCrystal: the arms of a seed *)

Lemma arms_spec (x0 y0 : Q) (numArms : Z) (n : nat) (i : Z) (h : Heap) :
  let r := arms x0 y0 numArms n i h in
  List.length (fst r) = n
  /\ Forall (arm_of x0 y0) (fst r)
  /\ born (snd r) = rev (fst r) ++ born h
  /\ oids (fst r) = seq (List.length (born h)) n.
Proof.
  revert i h. induction n as [|n IH]; intros i h.
  - simpl. repeat split; constructor.
  - cbn -[Qmult Qplus Qminus Qdiv inject_Z].
    rewrite bind_eq. cbn -[Qmult Qplus Qminus Qdiv inject_Z].
    match goal with |- context [arms x0 y0 numArms n ?j ?h1] =>
      specialize (IH j h1); destruct (arms x0 y0 numArms n j h1) as [rest h2] end.
    cbn -[Qmult Qplus Qminus Qdiv inject_Z] in *.
    destruct IH as (IH1 & IH2 & IH3 & IH4).
    repeat split.
    + now rewrite IH1.
    + constructor; [|exact IH2].
      unfold arm_of; cbn -[Qmult Qplus Qminus Qdiv inject_Z].
      repeat split. eexists; reflexivity.
    + rewrite IH3, <- app_assoc. reflexivity.
    + f_equal. exact IH4.
Qed.

Lemma seedCrystal_spec (x0 y0 : Q) (h : Heap) :
  let r := seedCrystal x0 y0 h in
  let numArms := (3 + Qfloor (rnd (draws h) * 4))%Z in
  List.length (fst r) = Z.to_nat numArms
  /\ Forall (arm_of x0 y0) (fst r)
  /\ born (snd r) = rev (fst r) ++ born h
  /\ oids (fst r) = seq (List.length (born h)) (List.length (fst r)).
Proof.
  unfold seedCrystal. rewrite bind_eq. cbn [random fst snd].
  pose proof (arms_spec x0 y0 (3 + Qfloor (rnd (draws h) * 4))
                (Z.to_nat (3 + Qfloor (rnd (draws h) * 4))) 0
                (mkHeap (S (draws h)) (born h))) as (H1 & H2 & H3 & H4).
  cbn [born] in *. repeat split; try assumption.
  rewrite H1. exact H4.
Qed.

(** ** The loop of a frame *)

Lemma each_branch_all (bs keep spawned : list Branch) (ctx : Canvas2D.t) (h : Heap) :
  each_branch bs keep spawned ctx h
  = (keep ++ filter alive (map fst (fst (fst (advance_all bs ctx h)))),
     spawned ++ List.concat (map snd (fst (fst (advance_all bs ctx h)))),
     snd (fst (advance_all bs ctx h)),
     snd (advance_all bs ctx h)).
Proof.
  revert keep spawned ctx h. induction bs as [|b rest IH]; intros.
  - cbn. now rewrite !app_nil_r.
  - cbn [each_branch advance_all]. rewrite !bind_eq.
    destruct (advance b GROW_SPEED ctx h) as [[[b' ctx'] kids] h1].
    cbn [fst snd]. rewrite IH, bind_eq.
    destruct (advance_all rest ctx' h1) as [[rs ctx''] h2].
    cbn [fst snd ret map filter List.concat]. fold (alive b').
    destruct (alive b'); now rewrite <- !app_assoc.
Qed.

Lemma tick_frame (st : Frost) (ctx : Canvas2D.t) :
  canvasRef st = Some ctx -> branches st <> [] ->
  let r := advance_all (branches st) (frost_style ctx) (heap st) in
  tick st
  = mkFrost (Some (snd (fst r)))
            (filter alive (map fst (fst (fst r)))
             ++ List.concat (map snd (fst (fst r))))
            (drawing st) (lastPos st) (distAcc st) (snd r) (planted st).
Proof.
  intros Hc Hne r. unfold tick. rewrite Hc.
  destruct (branches st) as [|b rest] eqn:Hb; [congruence|].
  cbn [List.length Nat.ltb Nat.leb].
  fold (frost_style ctx). rewrite each_branch_all. reflexivity.
Qed.

Lemma tick_idle (st : Frost) : branches st = [] -> tick st = st.
Proof.
  intro H. unfold tick. rewrite H. now destruct (canvasRef st).
Qed.

(** The identities and the allocations of one call. *)
Lemma advance_heap (b : Branch) (step : Q) (ctx : Canvas2D.t) (h : Heap) :
  oid (branch_after b step ctx h) = oid b
  /\ born (heap_after b step ctx h) = rev (children b step ctx h) ++ born h
  /\ oids (children b step ctx h)
     = seq (List.length (born h)) (List.length (children b step ctx h)).
Proof.
  split.
  { destruct (branch_after_stepped b step ctx h) as [next ->].
    cbn [oid set_nextBranchIn]. apply stepped_keeps. }
  unfold heap_after, children.
  destruct (advance_cases b step ctx h)
    as [[Hs E] | [(Hs & Hn & E) | (Hs & Hf & sides & h1 & nx & h' & Hne & Hb1 & Hb' & _ & E)]];
    rewrite E; cbn [fst snd]; try (split; reflexivity).
  pose proof (sprout_spec (stepped b step) sides h1) as (Hlen & _ & Hborn & Hoid).
  cbn zeta in *. rewrite Hb1 in Hborn, Hoid.
  rewrite Hb', Hborn, Hoid, Hlen. split; reflexivity.
Qed.

Lemma advance_all_heap (bs : list Branch) (ctx : Canvas2D.t) (h : Heap) :
  let r := advance_all bs ctx h in
  let kids := List.concat (map snd (fst (fst r))) in
  oids (map fst (fst (fst r))) = oids bs
  /\ born (snd r) = rev kids ++ born h
  /\ oids kids = seq (List.length (born h)) (List.length kids).
Proof.
  revert ctx h. induction bs as [|b rest IH]; intros ctx h.
  - cbn. repeat split.
  - cbn [advance_all]. rewrite bind_eq.
    pose proof (advance_heap b GROW_SPEED ctx h) as (Ho & Hb & Hk).
    unfold branch_after, heap_after, children in *.
    destruct (advance b GROW_SPEED ctx h) as [[[b' ctx'] kids] h1].
    cbn [fst snd] in *. rewrite bind_eq.
    specialize (IH ctx' h1).
    destruct (advance_all rest ctx' h1) as [[rs ctx''] h2].
    cbn [fst snd ret map List.concat] in *.
    destruct IH as (IH1 & IH2 & IH3).
    repeat split.
    + unfold oids in *. cbn [map]. now rewrite Ho, IH1.
    + rewrite IH2, Hb, rev_app_distr, <- app_assoc. reflexivity.
    + unfold oids in *. rewrite map_app, Hk, IH3, Hb, !length_app, length_rev.
      rewrite seq_app. do 2 f_equal. lia.
Qed.

(** ** Identities: how the collection changes *)

Lemma grows_refl (st : Frost) : grows st st.
Proof.
  exists (branches st), []. rewrite app_nil_r.
  repeat split; auto using incl_refl.
Qed.

Lemma oids_filter_incl (f : Branch -> bool) (bs : list Branch) :
  incl (oids (filter f bs)) (oids bs).
Proof.
  intros i Hi. unfold oids in *. apply in_map_iff in Hi.
  destruct Hi as (b & <- & Hb). apply filter_In in Hb.
  destruct Hb as [Hb _]. now apply in_map.
Qed.

Lemma oids_filter_NoDup (f : Branch -> bool) (bs : list Branch) :
  NoDup (oids bs) -> NoDup (oids (filter f bs)).
Proof.
  unfold oids. induction bs as [|b rest IH]; intro H; cbn [filter map] in *.
  - constructor.
  - inversion H as [|? ? Hnin Hrest]; subst.
    destruct (f b); cbn [map]; [|auto].
    constructor; [|auto].
    intro Hin. apply Hnin. now apply (oids_filter_incl f rest).
Qed.

Lemma wf_grows (st st' : Frost) : grows st st' -> wf st -> wf st'.
Proof.
  intros (kept & new & Hb & Hincl & Hnd & Hnew & Hborn & Hc) (Wc & Wn & Wf).
  unfold wf. rewrite Hb, Hborn. unfold oids in *.
  rewrite map_app, Hnew, length_app, length_rev.
  rewrite Forall_forall in Wf.
  repeat split.
  - auto.
  - apply NoDup_app; [auto | apply seq_NoDup |].
    intros i Hi Hs. apply in_seq in Hs. apply Hincl, Wf in Hi. lia.
  - apply Forall_app. split; apply Forall_forall; intros i Hi.
    + apply Hincl, Wf in Hi. lia.
    + apply in_seq in Hi. lia.
Qed.

Lemma gone_grows (i : nat) (st st' : Frost) :
  grows st st' -> gone i st -> gone i st'.
Proof.
  intros (kept & new & Hb & Hincl & _ & Hnew & Hborn & _) (Hnin & Hlt).
  unfold gone. rewrite Hb, Hborn. unfold oids in *.
  rewrite map_app, Hnew, length_app, length_rev. split; [|lia].
  intro Hin. apply in_app_or in Hin. destruct Hin as [Hin | Hin].
  - apply Hnin, Hincl, Hin.
  - apply in_seq in Hin. lia.
Qed.

Lemma plant_grows (px py : Q) (st : Frost) : grows st (plant px py st).
Proof.
  unfold plant.
  pose proof (seedCrystal_spec px py (heap st)) as (_ & _ & Hb & Ho).
  destruct (seedCrystal px py (heap st)) as [seeds h']. cbn [fst snd] in *.
  exists (branches st), seeds. cbn [branches heap canvasRef].
  repeat split; auto using incl_refl.
Qed.

Lemma tick_grows (st : Frost) : grows st (tick st).
Proof.
  destruct (canvasRef st) as [ctx|] eqn:Hc.
  2:{ unfold tick. rewrite Hc. apply grows_refl. }
  destruct (branches st) as [|b0 rest] eqn:Hb.
  { rewrite (tick_idle st Hb). apply grows_refl. }
  assert (Hne : branches st <> []) by (rewrite Hb; discriminate).
  rewrite (tick_frame st ctx Hc Hne). rewrite Hb.
  pose proof (advance_all_heap (b0 :: rest) (frost_style ctx) (heap st))
    as (Ho & Hborn & Hk).
  cbn zeta in *.
  destruct (advance_all (b0 :: rest) (frost_style ctx) (heap st))
    as [[rs ctx'] h'].
  cbn [fst snd] in *.
  exists (filter alive (map fst rs)), (List.concat (map snd rs)).
  cbn [branches heap canvasRef]. rewrite <- Hb in Ho. repeat split.
  - rewrite <- Ho. apply oids_filter_incl.
  - intro Hnd. apply oids_filter_NoDup. now rewrite Ho.
  - exact Hk.
  - exact Hborn.
  - discriminate.
Qed.

Lemma step_grows (e : Event) (st : Frost) : grows st (step e st).
Proof.
  destruct e as [|px py|px py| |]; cbn [step].
  - apply tick_grows.
  - unfold handleDown.
    destruct (plant_grows px py
                (mkFrost (canvasRef st) (branches st) true (Some (px, py)) 0
                         (heap st) (planted st)))
      as (kept & new & H). exists kept, new. exact H.
  - unfold handleMove.
    destruct (drawing st); [|apply grows_refl].
    destruct (lastPos st) as [lp|]; [|apply grows_refl].
    cbn [distAcc].
    destruct (geb (bumped st lp px py) SPAWN_DIST).
    + destruct (plant_grows px py
                  (mkFrost (canvasRef st) (branches st) true (Some lp)
                           (bumped st lp px py) (heap st) (planted st)))
        as (kept & new & H). exists kept, new. exact H.
    + destruct (grows_refl st) as (kept & new & H). exists kept, new. exact H.
  - destruct (grows_refl st) as (kept & new & H). exists kept, new. exact H.
  - unfold clear. destruct (canvasRef st) as [c|]; [|apply grows_refl].
    exists [], []. cbn [branches heap canvasRef app List.length rev].
    repeat split; try constructor; try discriminate.
    intros i Hi. destruct Hi.
Qed.

Lemma wf_mounted (w h : Z) : wf (mounted w h).
Proof.
  unfold wf, mounted; cbn. repeat split; try constructor. discriminate.
Qed.

Lemma wf_run (es : list Event) (st : Frost) : wf st -> wf (run es st).
Proof.
  revert st. induction es as [|e es IH]; intros st H; [exact H|].
  cbn [run fold_left]. apply IH. eapply wf_grows; [apply step_grows | exact H].
Qed.

Lemma gone_run (i : nat) (es : list Event) (st : Frost) :
  gone i st -> gone i (run es st).
Proof.
  revert st. induction es as [|e es IH]; intros st H; [exact H|].
  cbn [run fold_left]. apply IH. eapply gone_grows; [apply step_grows | exact H].
Qed.

(** In a list of distinct objects, an object that a filter drops is not
    among those it keeps. *)
Lemma dropped_not_kept (f : Branch -> bool) (bs : list Branch) (b : Branch) :
  NoDup (oids bs) -> In b bs -> f b = false ->
  ~ In (oid b) (oids (filter f bs)).
Proof.
  unfold oids. induction bs as [|a rest IH]; intros Hnd Hin Hf; [destruct Hin|].
  inversion Hnd as [|? ? Hnin Hrest]; subst. cbn [filter].
  destruct Hin as [-> | Hin].
  - rewrite Hf. intro H. apply Hnin. now apply (oids_filter_incl f rest).
  - destruct (f a) eqn:Hfa; [|auto]. cbn [map].
    intros [Heq | H]; [|now apply (IH Hrest Hin Hf)].
    apply Hnin. rewrite Heq. now apply in_map.
Qed.

(** ** The frame *)

(** C5.  In every state the mounted component can reach, a tick over a
    non-empty collection advances each branch of the collection once, in
    order, by [GROW_SPEED]; the next collection is made of the advanced
    branches with [remaining > 0], followed by the children spawned in
    the frame; and a branch left with [remaining <= 0] is in no later
    collection, whatever events follow (so it is never advanced again). *)
Theorem tick_collection (w h : Z) (past : list Event) :
  let st := run past (mounted w h) in
  branches st <> [] ->
  exists ctx,
    canvasRef st = Some ctx
    /\ let r := advance_all (branches st) (frost_style ctx) (heap st) in
       let advanced := map fst (fst (fst r)) in
       let spawned := List.concat (map snd (fst (fst r))) in
       oids advanced = oids (branches st)
       /\ branches (tick st) = filter alive advanced ++ spawned
       /\ (forall b, In b advanced -> remaining b <= 0 ->
           forall later : list Event,
             ~ In (oid b) (oids (branches (run later (tick st))))).
Proof.
  intros st Hne.
  assert (W : wf st) by (apply wf_run, wf_mounted).
  destruct W as (Wc & Wn & Wf).
  destruct (canvasRef st) as [ctx|] eqn:Hc; [|congruence].
  exists ctx. split; [reflexivity|]. intros r advanced spawned.
  pose proof (advance_all_heap (branches st) (frost_style ctx) (heap st))
    as (Ho & Hborn & Hk).
  fold r in Ho, Hborn, Hk. fold advanced in Ho. fold spawned in Hborn, Hk.
  assert (Ht : branches (tick st) = filter alive advanced ++ spawned).
  { rewrite (tick_frame st ctx Hc Hne). reflexivity. }
  assert (Hh : born (heap (tick st)) = rev spawned ++ born (heap st)).
  { rewrite (tick_frame st ctx Hc Hne). exact Hborn. }
  split; [exact Ho|]. split; [exact Ht|].
  intros b Hin Hrem later.
  apply gone_run. unfold gone. rewrite Ht, Hh.
  assert (Hlt : (oid b < List.length (born (heap st)))%nat).
  { rewrite Forall_forall in Wf. apply Wf. rewrite <- Ho.
    unfold oids. now apply in_map. }
  split.
  - unfold oids. rewrite map_app. intro H. apply in_app_or in H.
    destruct H as [H | H].
    + revert H. apply dropped_not_kept; [now rewrite Ho | exact Hin |].
      unfold alive. now apply gtb_false.
    + fold (oids spawned) in H. rewrite Hk in H. apply in_seq in H. lia.
  - rewrite length_app. lia.
Qed.

(** ** The pointer *)

Lemma Qfloor_unique (q : Q) (z : Z) :
  inject_Z z <= q -> q < inject_Z (z + 1) -> Qfloor q = z.
Proof.
  intros Hle Hlt.
  pose proof (Qfloor_le q) as H1. pose proof (Qlt_floor q) as H2.
  assert (Ha : (Qfloor q < z + 1)%Z).
  { rewrite Zlt_Qlt. eapply Qle_lt_trans; eassumption. }
  assert (Hb : (z < Qfloor q + 1)%Z).
  { rewrite Zlt_Qlt. eapply Qle_lt_trans; eassumption. }
  lia.
Qed.

Lemma Qfloor_succ (q : Q) : Qfloor (q + 1) = (Qfloor q + 1)%Z.
Proof.
  pose proof (Qfloor_le q) as H1. pose proof (Qlt_floor q) as H2.
  rewrite inject_Z_plus in H2. change (inject_Z 1) with 1 in H2.
  apply Qfloor_unique; rewrite !inject_Z_plus; change (inject_Z 1) with 1; lra.
Qed.



Lemma handleMove_drawing (px py : Q) (st : Frost) (lp : Point) :
  drawing st = true -> lastPos st = Some lp ->
  let a := bumped st lp px py in
  (a < SPAWN_DIST
   /\ handleMove px py st
      = mkFrost (canvasRef st) (branches st) true (Some (px, py)) a
                (heap st) (planted st))
  \/ (SPAWN_DIST <= a
      /\ handleMove px py st
         = mkFrost (canvasRef st)
                   (branches st ++ fst (seedCrystal px py (heap st)))
                   true (Some (px, py)) 0
                   (snd (seedCrystal px py (heap st)))
                   ((px, py) :: planted st)).
Proof.
  intros Hd Hl a. unfold handleMove. rewrite Hd, Hl. fold a. cbn [distAcc].
  destruct (geb a SPAWN_DIST) eqn:Hg.
  - right. apply geb_true in Hg. split; [exact Hg|].
    unfold plant. cbn [heap].
    destruct (seedCrystal px py (heap st)) as [seeds h']. reflexivity.
  - left. apply geb_false in Hg. split; [exact Hg | reflexivity].
Qed.






(** ** Clear *)

Lemma clear_mounted (st : Frost) (canvas : Canvas2D.t) :
  canvasRef st = Some canvas ->
  clear st
  = mkFrost
      (Some (Canvas2D.mk (Canvas2D.width canvas) (Canvas2D.height canvas)
               (fun px py =>
                  if Canvas2D.inside 0 0 (Canvas2D.width canvas)
                       (Canvas2D.height canvas) px py
                  then BG else Canvas2D.pixels canvas px py)
               (Canvas2D.style canvas) (Canvas2D.saved canvas)
               (Canvas2D.path canvas) (Canvas2D.stroked canvas)))
      [] (drawing st) (lastPos st) (distAcc st) (heap st) (planted st).
Proof.
  intro Hc. unfold clear. rewrite Hc. reflexivity.
Qed.

Lemma inside_surface (w h px py : Z) :
  (0 <= px < w)%Z -> (0 <= py < h)%Z -> Canvas2D.inside 0 0 w h px py = true.
Proof.
  intros Hx Hy. unfold Canvas2D.inside.
  rewrite !andb_true_iff, !Z.leb_le, !Z.ltb_lt. lia.
Qed.

(** C10.  Clearing twice in a row leaves the component in the same
    observable state as clearing once.  With the canvas in place that
    state has an empty collection and the same surface, of the width and
    height it had, whose every pixel has the base colour; without a
    canvas [clear] changes nothing. *)
Theorem clear_idempotent (st : Frost) :
  same_state (clear (clear st)) (clear st)
  /\ (forall canvas, canvasRef st = Some canvas ->
      branches (clear st) = []
      /\ exists c, canvasRef (clear st) = Some c
                   /\ Canvas2D.width c = Canvas2D.width canvas
                   /\ Canvas2D.height c = Canvas2D.height canvas
                   /\ all_BG c)
  /\ (canvasRef st = None -> clear st = st).
Proof.
  destruct (canvasRef st) as [canvas|] eqn:Hc.
  - rewrite (clear_mounted st canvas Hc). split; [|split].
    + erewrite clear_mounted by reflexivity.
      unfold same_state, same_canvas.
      cbn [canvasRef branches drawing lastPos distAcc heap planted
           Canvas2D.width Canvas2D.height Canvas2D.pixels Canvas2D.style
           Canvas2D.saved Canvas2D.path Canvas2D.stroked].
      repeat split.
      intros px py.
      now destruct (Canvas2D.inside 0 0 (Canvas2D.width canvas)
                      (Canvas2D.height canvas) px py).
    + intros canvas' Hc'. injection Hc' as <-. split; [reflexivity|].
      eexists. split; [reflexivity|].
      cbn [Canvas2D.width Canvas2D.height].
      split; [reflexivity|]. split; [reflexivity|].
      intros px py Hx Hy. cbn [Canvas2D.width Canvas2D.height Canvas2D.pixels] in *.
      now rewrite inside_surface.
    + intro H. discriminate H.
  - assert (E : clear st = st) by (unfold clear; now rewrite Hc).
    rewrite !E. split; [|split].
    + unfold same_state. rewrite Hc. repeat split.
    + intros canvas H. discriminate.
    + reflexivity.
Qed.

(** ** Segments drawn and lengths due *)

Lemma Qceiling_unique (q : Q) (z : Z) :
  inject_Z (z - 1) < q -> q <= inject_Z z -> Qceiling q = z.
Proof.
  intros Hlt Hle. unfold Qceiling.
  rewrite (Qfloor_unique (- q) (- z)); [lia | |].
  - rewrite inject_Z_opp. lra.
  - replace (- z + 1)%Z with (- (z - 1))%Z by lia. rewrite inject_Z_opp. lra.
Qed.

Lemma Qceiling_pred (q : Q) : Qceiling (q - 1) = (Qceiling q - 1)%Z.
Proof.
  unfold Qceiling.
  rewrite (Qfloor_comp (- (q - 1)) (- q + 1)) by ring.
  rewrite Qfloor_succ. lia.
Qed.

Lemma total_due_cons (b : Branch) (l : list Branch) :
  total_due (b :: l) = (due b + total_due l)%Z.
Proof. reflexivity. Qed.

Lemma total_due_app (l1 l2 : list Branch) :
  total_due (l1 ++ l2) = (total_due l1 + total_due l2)%Z.
Proof.
  induction l1 as [|b l IH]; [reflexivity|].
  cbn [app]. rewrite !total_due_cons, IH. lia.
Qed.

Lemma total_due_rev (l : list Branch) : total_due (rev l) = total_due l.
Proof.
  induction l as [|b l IH]; [reflexivity|].
  cbn [rev]. rewrite total_due_app, IH, !total_due_cons.
  change (total_due []) with 0%Z. lia.
Qed.

(** A step takes one [GROW_SPEED] off what is due, and a branch that is
    not kept has nothing due. *)
Lemma due_step (left : Q) :
  0 < left ->
  Qceiling ((left - Qmin GROW_SPEED left) / GROW_SPEED)
  = (Qceiling (left / GROW_SPEED) - 1)%Z
  /\ (left - Qmin GROW_SPEED left <= 0 ->
      Qceiling ((left - Qmin GROW_SPEED left) / GROW_SPEED) = 0%Z).
Proof.
  intro Hpos. unfold GROW_SPEED.
  destruct (Q.min_spec 7 left) as [[Hlt Hmin] | [Hle Hmin]].
  - (* a whole step *)
    split.
    + rewrite (Qceiling_comp ((left - Qmin 7 left) / 7) (left / 7 - 1))
        by (rewrite Hmin; field).
      apply Qceiling_pred.
    + intro H. rewrite Hmin in H. lra.
  - (* the last step *)
    assert (E : Qceiling ((left - Qmin 7 left) / 7) = 0%Z).
    { rewrite (Qceiling_comp ((left - Qmin 7 left) / 7) 0)
        by (rewrite Hmin; field).
      reflexivity. }
    split; [|intros _; exact E]. rewrite E.
    rewrite (Qceiling_unique (left / 7) 1); [reflexivity | |].
    + change (inject_Z (1 - 1)) with 0. apply Qlt_shift_div_l; lra.
    + change (inject_Z 1) with 1. apply Qle_shift_div_r; lra.
Qed.

Lemma advance_count (b : Branch) (ctx : Canvas2D.t) (h : Heap) :
  0 < remaining b ->
  let b' := branch_after b GROW_SPEED ctx h in
  List.length (Canvas2D.stroked (canvas_after b GROW_SPEED ctx h))
  = S (List.length (Canvas2D.stroked ctx))
  /\ due b' = (due b - 1)%Z
  /\ (alive b' = false -> due b' = 0%Z).
Proof.
  intros Hpos b'.
  assert (Hstep : 0 < GROW_SPEED) by reflexivity.
  pose proof (effective_pos b GROW_SPEED Hpos Hstep) as Hs.
  rewrite (canvas_after_grow b GROW_SPEED ctx h Hs), draw_stroked, length_app.
  cbn [List.length].
  split; [lia|].
  pose proof (branch_after_grow b GROW_SPEED ctx h Hs) as Hrem.
  fold b' in Hrem.
  unfold due. rewrite Hrem. unfold effective.
  destruct (due_step (remaining b) Hpos) as [H1 H2].
  split; [exact H1|].
  intro Hal. apply H2. unfold alive in Hal. apply gtb_false in Hal.
  rewrite Hrem in Hal. exact Hal.
Qed.

Lemma due_pos (b : Branch) : 0 < remaining b -> (1 <= due b)%Z.
Proof.
  intro H. unfold due.
  assert (Hq : 0 < remaining b / GROW_SPEED)
    by (unfold GROW_SPEED; apply Qlt_shift_div_l; lra).
  pose proof (Qle_ceiling (remaining b / GROW_SPEED)) as Hc.
  assert (Hz : (0 < Qceiling (remaining b / GROW_SPEED))%Z).
  { rewrite Zlt_Qlt. change (inject_Z 0) with 0. lra. }
  lia.
Qed.

Lemma due_nonpos (b : Branch) : remaining b <= 0 -> (due b <= 0)%Z.
Proof.
  intro H. unfold due. change 0%Z with (Qceiling 0).
  apply Qceiling_resp_le. unfold GROW_SPEED. apply Qle_shift_div_r; lra.
Qed.

(** Over [m] calls in a row a branch draws one segment per call until
    [ceil(length / GROW_SPEED)] are drawn, and none after. *)
Lemma advance_times_segments (m : nat) (b : Branch) (ctx : Canvas2D.t) (h : Heap) :
  List.length (Canvas2D.stroked (snd (fst (advance_times m b ctx h))))
  = (List.length (Canvas2D.stroked ctx) + Nat.min m (Z.to_nat (due b)))%nat.
Proof.
  revert b ctx h. induction m as [|m IH]; intros b ctx h.
  - cbn. lia.
  - cbn [advance_times]. rewrite bind_eq.
    destruct (Qlt_le_dec 0 (remaining b)) as [Hpos | Hle].
    + pose proof (advance_count b ctx h Hpos) as (Hseg & Hdue & _).
      pose proof (due_pos b Hpos) as H1.
      unfold branch_after, canvas_after in *.
      destruct (advance b GROW_SPEED ctx h) as [[[b' ctx'] kids] h1].
      cbn [fst snd] in *. rewrite IH, Hseg, Hdue.
      replace (Z.to_nat (due b)) with (S (Z.to_nat (due b - 1))) by lia.
      cbn [Nat.min]. lia.
    + assert (Hs : effective b GROW_SPEED <= 0).
      { unfold effective. eapply Qle_trans; [apply Q.le_min_r | exact Hle]. }
      rewrite (advance_idle b GROW_SPEED ctx h Hs). cbn [fst snd].
      rewrite IH. pose proof (due_nonpos b Hle).
      replace (Z.to_nat (due b)) with 0%nat by lia.
      rewrite !Nat.min_0_r. reflexivity.
Qed.

(** ** With draws in [0, 1) *)

Section InRange.

(** [Math.random] returns a number in [0, 1). *)
Hypothesis rnd_range : forall n, 0 <= rnd n /\ rnd n < 1.

Lemma numArms_range (k : nat) :
  (3 <= 3 + Qfloor (rnd k * 4) <= 6)%Z.
Proof.
  destruct (rnd_range k) as [H0 H1].
  assert (Ha : (0 <= Qfloor (rnd k * 4))%Z).
  { change 0%Z with (Qfloor 0). apply Qfloor_resp_le. lra. }
  assert (Hb : (Qfloor (rnd k * 4) < 4)%Z).
  { rewrite Zlt_Qlt. eapply Qle_lt_trans; [apply Qfloor_le|].
    change (inject_Z 4) with 4. lra. }
  lia.
Qed.

(** C6.  [seedCrystal(x, y)] returns between 3 and 6 branches, each with
    its tip at [(x, y)] and with depth [MAX_DEPTH]. *)
Theorem seedCrystal_arms (x0 y0 : Q) (h : Heap) :
  let seeds := fst (seedCrystal x0 y0 h) in
  (3 <= List.length seeds <= 6)%nat
  /\ Forall (fun b => x b = x0 /\ y b = y0 /\ depth b = MAX_DEPTH) seeds.
Proof.
  intro seeds.
  pose proof (seedCrystal_spec x0 y0 h) as (Hlen & Hall & _).
  fold seeds in Hlen, Hall. split.
  - rewrite Hlen. pose proof (numArms_range (draws h)). lia.
  - eapply Forall_impl; [|exact Hall].
    intros b (Hx & Hy & Hd & _). auto.
Qed.

(** *** Lengths shrink by a frame's distance *)

Lemma arm_length (x0 y0 : Q) (b : Branch) :
  arm_of x0 y0 b -> 55 <= remaining b /\ remaining b < 125.
Proof.
  intros (_ & _ & _ & _ & _ & k & ->).
  destruct (rnd_range k). lra.
Qed.

Lemma child_length (p c : Branch) :
  child_of p c -> 6 < remaining p ->
  0 < remaining c /\ remaining c <= remaining p.
Proof.
  intros (_ & _ & _ & _ & _ & k & ->) Hp.
  destruct (rnd_range k). nra.
Qed.

(** One call on a branch no longer than [B]: the branch, if it stays
    alive, and its children are no longer than [B - GROW_SPEED]; the
    children have a positive length. *)
Lemma advance_shrinks (b : Branch) (ctx : Canvas2D.t) (h : Heap) (B : Q) :
  remaining b <= B ->
  (alive (branch_after b GROW_SPEED ctx h) = true ->
   remaining (branch_after b GROW_SPEED ctx h) <= B - GROW_SPEED)
  /\ Forall (fun c => 0 < remaining c /\ remaining c <= B - GROW_SPEED)
            (children b GROW_SPEED ctx h).
Proof.
  intro HB.
  pose proof (Q.min_spec GROW_SPEED (remaining b)) as Hmin.
  fold (effective b GROW_SPEED) in Hmin.
  unfold branch_after, children, alive.
  destruct (advance_cases b GROW_SPEED ctx h)
    as [[Hs E] | [(Hs & Hn & E) | (Hs & Hf & sides & h1 & nx & h' & Hne & _ & _ & _ & E)]];
    rewrite E; cbn [fst snd remaining set_nextBranchIn].
  - split; [|constructor]. rewrite gtb_true. unfold GROW_SPEED in *. lra.
  - split; [|constructor]. rewrite gtb_true.
    rewrite (stepped_grow b GROW_SPEED Hs). cbn [remaining moved].
    unfold GROW_SPEED in *. lra.
  - destruct Hf as (_ & _ & _ & H6).
    pose proof H6 as H6'.
    rewrite (stepped_grow b GROW_SPEED Hs) in H6'. cbn [remaining moved] in H6'.
    split.
    + intros _. rewrite (stepped_grow b GROW_SPEED Hs). cbn [remaining moved].
      unfold GROW_SPEED in *. lra.
    + pose proof (sprout_spec (stepped b GROW_SPEED) sides h1) as (_ & Hall & _).
      cbn zeta in Hall. eapply Forall_impl; [|exact Hall].
      intros c Hc. destruct (child_length _ c Hc H6) as [Hc0 Hc1].
      split; [exact Hc0|].
      rewrite (stepped_grow b GROW_SPEED Hs) in Hc1. cbn [remaining moved] in Hc1.
      unfold GROW_SPEED in *. lra.
Qed.

Lemma advance_all_shrinks (bs : list Branch) (ctx : Canvas2D.t) (h : Heap) (B : Q) :
  Forall (fun b => remaining b <= B) bs ->
  let r := advance_all bs ctx h in
  Forall (fun b => 0 < remaining b /\ remaining b <= B - GROW_SPEED)
         (filter alive (map fst (fst (fst r)))
          ++ List.concat (map snd (fst (fst r)))).
Proof.
  revert ctx h. induction bs as [|b rest IH]; intros ctx h HB.
  - cbn. constructor.
  - inversion HB as [|? ? Hb Hrest]; subst.
    cbn [advance_all]. rewrite bind_eq.
    pose proof (advance_shrinks b ctx h B Hb) as (Ha & Hk).
    unfold branch_after, children in *.
    destruct (advance b GROW_SPEED ctx h) as [[[b' ctx'] kids] h1].
    cbn [fst snd] in *. rewrite bind_eq.
    specialize (IH ctx' h1 Hrest).
    destruct (advance_all rest ctx' h1) as [[rs ctx''] h2].
    cbn [fst snd ret map List.concat filter] in *.
    apply Forall_app in IH. destruct IH as [IH1 IH2].
    apply Forall_app. split.
    + destruct (alive b') eqn:Hal; [|exact IH1].
      constructor; [|exact IH1]. split; [|auto].
      unfold alive in Hal. now apply gtb_true in Hal.
    + apply Forall_app. split; assumption.
Qed.

Lemma tick_shrinks (st : Frost) (B : Q) :
  canvasRef st <> None ->
  Forall (fun b => remaining b <= B) (branches st) ->
  canvasRef (tick st) <> None
  /\ Forall (fun b => 0 < remaining b /\ remaining b <= B - GROW_SPEED)
            (branches (tick st)).
Proof.
  intros Hc HB.
  destruct (canvasRef st) as [ctx|] eqn:Hctx; [|congruence].
  destruct (branches st) as [|b0 rest] eqn:Hb.
  { rewrite (tick_idle st Hb), Hb, Hctx. split; [discriminate | constructor]. }
  assert (Hne : branches st <> []) by (rewrite Hb; discriminate).
  rewrite (tick_frame st ctx Hctx Hne). cbn [canvasRef branches].
  split; [discriminate|]. apply advance_all_shrinks. now rewrite Hb.
Qed.

Lemma frames_shrink (n : nat) (st : Frost) (B : Q) :
  canvasRef st <> None ->
  Forall (fun b => remaining b <= B) (branches st) ->
  canvasRef (frames n st) <> None
  /\ Forall (fun b => remaining b <= B - inject_Z (Z.of_nat n) * GROW_SPEED)
            (branches (frames n st)).
Proof.
  intros Hc HB. induction n as [|n [IHc IHB]].
  - cbn [frames Nat.iter]. split; [exact Hc|].
    eapply Forall_impl; [|exact HB]. intros b Hb. cbv beta in *.
    change (inject_Z (Z.of_nat 0)) with 0. unfold GROW_SPEED. lra.
  - change (frames (S n) st) with (tick (frames n st)).
    destruct (tick_shrinks _ _ IHc IHB) as [Tc TB]. split; [exact Tc|].
    eapply Forall_impl; [|exact TB]. intros b [_ Hb]. cbv beta in *.
    rewrite Nat2Z.inj_succ, <- Z.add_1_r, inject_Z_plus.
    change (inject_Z 1) with 1. unfold GROW_SPEED in *. lra.
Qed.

Lemma frames_S (n : nat) (st : Frost) :
  frames (S n) st = tick (frames n st).
Proof. reflexivity. Qed.

Lemma frames_add (n m : nat) (st : Frost) :
  frames (n + m) st = frames m (frames n st).
Proof.
  unfold frames. rewrite Nat.add_comm. apply Nat.iter_add.
Qed.

Lemma frames_idle (n : nat) (st : Frost) :
  branches st = [] -> frames n st = st.
Proof.
  intro H. induction n as [|n IH]; [reflexivity|].
  change (frames (S n) st) with (tick (frames n st)).
  rewrite IH. now apply tick_idle.
Qed.

(** C7.  After one seed is planted in an empty collection, and whatever
    the draws in [0, 1), the frames empty the collection: it is empty
    after 18 frames and stays so. *)
Theorem growth_ends (st : Frost) (px py : Q) :
  canvasRef st <> None -> branches st = [] ->
  exists n : nat,
    forall m : nat, (n <= m)%nat ->
      branches (frames m (plant px py st)) = [].
Proof.
  intros Hc Hb. exists 18%nat.
  assert (Hp : canvasRef (plant px py st) <> None
               /\ Forall (fun b => remaining b <= 125)
                         (branches (plant px py st))).
  { unfold plant.
    pose proof (seedCrystal_spec px py (heap st)) as (_ & Hall & _).
    destruct (seedCrystal px py (heap st)) as [seeds h'].
    cbn [fst snd canvasRef branches] in *. split; [exact Hc|].
    rewrite Hb. cbn [app]. eapply Forall_impl; [|exact Hall].
    intros b Hb'. destruct (arm_length _ _ _ Hb'). cbv beta. lra. }
  destruct Hp as [Pc PB].
  generalize dependent (plant px py st). intros st1 Pc PB.
  assert (H18 : branches (frames 18 st1) = []).
  { destruct (frames_shrink 17 st1 125 Pc PB) as [Fc FB].
    rewrite (frames_S 17 st1).
    generalize dependent (frames 17 st1). intros st17 Fc FB.
    destruct (tick_shrinks st17 _ Fc FB) as [_ TB].
    destruct (branches (tick st17)) as [|b l]; [reflexivity|].
    exfalso. apply Forall_inv in TB. destruct TB as [H0 H1].
    change (inject_Z (Z.of_nat 17)) with 17 in H1.
    unfold GROW_SPEED in H1. lra. }
  intros m Hm. replace m with (18 + (m - 18))%nat by lia.
  rewrite frames_add, (frames_idle (m - 18) (frames 18 st1) H18).
  exact H18.
Qed.

(** *** Segments drawn in a run *)

Lemma advance_all_count (bs : list Branch) (ctx : Canvas2D.t) (h : Heap) :
  Forall (fun b => 0 < remaining b) bs ->
  let r := advance_all bs ctx h in
  List.length (Canvas2D.stroked (snd (fst r)))
  = (List.length (Canvas2D.stroked ctx) + List.length bs)%nat
  /\ total_due (filter alive (map fst (fst (fst r))))
     = (total_due bs - Z.of_nat (List.length bs))%Z.
Proof.
  revert ctx h. induction bs as [|b rest IH]; intros ctx h Hall.
  - cbn. split; lia.
  - inversion Hall as [|? ? Hb Hrest]; subst.
    cbn [advance_all]. rewrite bind_eq.
    pose proof (advance_count b ctx h Hb) as (Hseg & Hdue & Hdead).
    unfold branch_after, canvas_after in *.
    destruct (advance b GROW_SPEED ctx h) as [[[b' ctx'] kids] h1].
    cbn [fst snd] in *. rewrite bind_eq.
    specialize (IH ctx' h1 Hrest).
    destruct (advance_all rest ctx' h1) as [[rs ctx''] h2].
    cbn [fst snd ret map filter] in *.
    destruct IH as [IH1 IH2]. split.
    + rewrite IH1, Hseg. cbn [List.length]. lia.
    + cbn [List.length]. rewrite total_due_cons, Nat2Z.inj_succ.
      destruct (alive b') eqn:Hal.
      * rewrite total_due_cons. lia.
      * specialize (Hdead eq_refl). lia.
Qed.

Lemma advance_all_positive (bs : list Branch) (ctx : Canvas2D.t) (h : Heap) :
  let r := advance_all bs ctx h in
  Forall (fun b => 0 < remaining b)
         (filter alive (map fst (fst (fst r)))
          ++ List.concat (map snd (fst (fst r)))).
Proof.
  revert ctx h. induction bs as [|b rest IH]; intros ctx h.
  - cbn. constructor.
  - cbn [advance_all]. rewrite bind_eq.
    pose proof (advance_shrinks b ctx h (remaining b) (Qle_refl _)) as (_ & Hk).
    unfold children in Hk.
    destruct (advance b GROW_SPEED ctx h) as [[[b' ctx'] kids] h1].
    cbn [fst snd] in *. rewrite bind_eq.
    specialize (IH ctx' h1).
    destruct (advance_all rest ctx' h1) as [[rs ctx''] h2].
    cbn [fst snd ret map filter List.concat] in *.
    apply Forall_app in IH. destruct IH as [IH1 IH2].
    apply Forall_app. split.
    + destruct (alive b') eqn:Hal; [|exact IH1].
      constructor; [|exact IH1]. unfold alive in Hal. now apply gtb_true in Hal.
    + apply Forall_app. split; [|exact IH2].
      eapply Forall_impl; [|exact Hk]. intros c [Hc0 _]. exact Hc0.
Qed.

Lemma balanced_tick (st : Frost) : balanced st -> balanced (tick st).
Proof.
  intros (Hc & Hpos & Hacc).
  destruct (canvasRef st) as [ctx|] eqn:Hctx; [|congruence].
  destruct (branches st) as [|b0 rest] eqn:Hb.
  { rewrite (tick_idle st Hb). unfold balanced. rewrite Hctx, Hb.
    repeat split; [discriminate | constructor |].
    unfold segments in *. rewrite Hctx in *. exact Hacc. }
  assert (Hne : branches st <> []) by (rewrite Hb; discriminate).
  rewrite <- Hb in *. clear Hb.
  unfold balanced. rewrite (tick_frame st ctx Hctx Hne).
  pose proof (advance_all_heap (branches st) (frost_style ctx) (heap st))
    as (_ & Hborn & _).
  pose proof (advance_all_count (branches st) (frost_style ctx) (heap st) Hpos)
    as (Hseg & Hdue).
  pose proof (advance_all_positive (branches st) (frost_style ctx) (heap st))
    as Hkids.
  cbn zeta in *.
  destruct (advance_all (branches st) (frost_style ctx) (heap st))
    as [[rs ctx'] h'].
  cbn [fst snd canvasRef branches heap] in *.
  repeat split; [discriminate | exact Hkids |].
  unfold segments in *. rewrite Hctx in Hacc. cbn [canvasRef].
  rewrite Hseg, total_due_app, Hdue, Hborn, total_due_app, total_due_rev.
  change (Canvas2D.stroked (frost_style ctx)) with (Canvas2D.stroked ctx).
  rewrite Nat2Z.inj_add. lia.
Qed.

Lemma balanced_frames (n : nat) (st : Frost) :
  balanced st -> balanced (frames n st).
Proof.
  intro H. induction n as [|n IH]; [exact H|].
  rewrite frames_S. now apply balanced_tick.
Qed.

Lemma balanced_planted (w h : Z) (px py : Q) :
  balanced (plant px py (mounted w h)).
Proof.
  unfold plant.
  pose proof (seedCrystal_spec px py (heap (mounted w h))) as (_ & Hall & Hb & _).
  destruct (seedCrystal px py (heap (mounted w h))) as [seeds h'].
  cbn [fst snd] in *. unfold balanced.
  cbn [canvasRef branches heap mounted app segments born] in *.
  repeat split.
  - discriminate.
  - eapply Forall_impl; [|exact Hall].
    intros b Hb'. destruct (arm_length _ _ _ Hb'). cbv beta. lra.
  - rewrite Hb, app_nil_r, total_due_rev. cbn [Canvas2D.stroked List.length
      Canvas2D.fillRect Canvas2D.set_fillStyle Canvas2D.with_style]. lia.
Qed.

(** C8 (as amended).  Over a complete run from one seed planted in the
    mounted component until the collection is empty, the number of
    segments drawn is the sum, over all the branches ever created, of
    [ceil(length / GROW_SPEED)] for the length the branch was created
    with; and a branch draws one segment per call of [advance] until
    [ceil(length / GROW_SPEED)] are drawn, and none after. *)
Theorem segments_drawn (w h : Z) (px py : Q) (n : nat) :
  let final := frames n (plant px py (mounted w h)) in
  branches final = [] ->
  Z.of_nat (segments final) = total_due (born (heap final))
  /\ forall (b : Branch) (ctx : Canvas2D.t) (hp : Heap) (m : nat),
       List.length (Canvas2D.stroked (snd (fst (advance_times m b ctx hp))))
       = (List.length (Canvas2D.stroked ctx)
          + Nat.min m (Z.to_nat (due b)))%nat.
Proof.
  intros final Hempty. split.
  - destruct (balanced_frames n _ (balanced_planted w h px py))
      as (_ & _ & Hacc).
    fold final in Hacc. rewrite Hempty in Hacc.
    change (total_due []) with 0%Z in Hacc. lia.
  - intros b ctx hp m. apply advance_times_segments.
Qed.

End InRange.

(** ** More on advance *)

(** X1.  A call of [advance] never changes the identity, the curl rate,
    the alpha, the line width or the depth of the branch. *)
Theorem advance_keeps
  (b : Branch) (step : Q) (ctx : Canvas2D.t) (h : Heap) :
  let b' := branch_after b step ctx h in
  oid b' = oid b /\ curlRate b' = curlRate b /\ alpha b' = alpha b
  /\ lineWidth b' = lineWidth b /\ depth b' = depth b.
Proof.
  intro b'. unfold b'.
  destruct (branch_after_stepped b step ctx h) as [next ->].
  cbn [oid curlRate alpha lineWidth depth set_nextBranchIn].
  destruct (stepped_keeps b step) as (H1 & H2 & H3 & H4 & H5).
  repeat split; assumption.
Qed.

Lemma sprout_draws (p : Branch) (sides : list Q) (h : Heap) :
  draws (snd (sprout p sides h)) = (draws h + 4 * List.length sides)%nat.
Proof.
  revert h. induction sides as [|side more IH]; intro h.
  - cbn. lia.
  - cbn -[Qmult Qplus Qminus Qdiv Nat.mul].
    rewrite bind_eq. cbn -[Qmult Qplus Qminus Qdiv Nat.mul].
    match goal with |- context [sprout p more ?h1] =>
      specialize (IH h1); destruct (sprout p more h1) as [rest h2] end.
    cbn -[Qmult Qplus Qminus Qdiv Nat.mul] in *. rewrite IH. lia.
Qed.

(** The sides of a fork and the heap its children are made in. *)
Lemma advance_fork_sides (b : Branch) (step : Q) (ctx : Canvas2D.t) (h : Heap) :
  0 < effective b step ->
  fork_due (nextBranchIn b) (stepped b step) ->
  exists sides h1,
    ((gtb (rnd (draws h)) 0.25 = true /\ sides = [-1; 1]
      /\ h1 = mkHeap (S (draws h)) (born h))
     \/ (gtb (rnd (draws h)) 0.25 = false
         /\ sides = [if gtb (rnd (S (draws h))) 0.5 then 1 else -1]
         /\ h1 = mkHeap (S (S (draws h))) (born h)))
    /\ children b step ctx h = fst (sprout (stepped b step) sides h1)
    /\ (draws (heap_after b step ctx h)
        <= S (draws (snd (sprout (stepped b step) sides h1))))%nat
    /\ (draws (snd (sprout (stepped b step) sides h1))
        <= draws (heap_after b step ctx h))%nat.
Proof.
  intros Hpos Hf. set (s := effective b step) in *.
  set (b1 := stepped b step) in *.
  assert (Hs : leb s 0 = false) by now apply leb_false.
  assert (Hb1 : b1 = moved b s
                  (x b + cos ((angle b + (angle b + curlRate b * s)) / 2) * s)
                  (y b + sin ((angle b + (angle b + curlRate b * s)) / 2) * s)
                  (angle b + curlRate b * s))
    by (apply stepped_grow; exact Hpos).
  unfold children, heap_after, advance. fold (effective b step). fold s.
  rewrite Hs, <- Hb1.
  apply fork_test_iff in Hf. rewrite Hf.
  rewrite bind_eq. cbn [random fst snd].
  destruct (gtb (rnd (draws h)) 0.25) eqn:Hbi.
  - rewrite bind_eq. cbn [ret fst snd]. rewrite bind_eq.
    exists [-1; 1], (mkHeap (S (draws h)) (born h)).
    split; [left; repeat split|].
    destruct (gtb (remaining b1) 14); rewrite bind_eq;
      cbn [random ret fst snd bind draws born]; repeat split; lia.
  - rewrite bind_eq. rewrite (bind_eq random). cbn [random ret fst snd].
    rewrite bind_eq.
    exists [if gtb (rnd (S (draws h))) 0.5 then 1 else -1],
           (mkHeap (S (S (draws h))) (born h)).
    split; [right; repeat split|].
    destruct (gtb (remaining b1) 14); rewrite bind_eq;
      cbn [random ret fst snd bind draws born]; repeat split; lia.
Qed.

(** X2.  A call of [advance] returns at most two children; it makes at most
    10 random draws, and a call that returns no child makes none and
    allocates nothing. *)
Theorem advance_fork_size
  (b : Branch) (step : Q) (ctx : Canvas2D.t) (h : Heap) :
  let kids := children b step ctx h in
  let h' := heap_after b step ctx h in
  (List.length kids <= 2)%nat
  /\ (draws h <= draws h' <= draws h + 10)%nat
  /\ (kids = [] -> h' = h).
Proof.
  intros kids h'. unfold kids, h', children, heap_after.
  destruct (advance_cases b step ctx h)
    as [[Hs E] | [(Hs & Hn & E) | (Hs & Hf & _)]].
  - rewrite E. cbn [fst snd List.length]. repeat split; lia.
  - rewrite E. cbn [fst snd List.length]. repeat split; lia.
  - destruct (advance_fork_sides b step ctx h Hs Hf)
      as (sides & h1 & Hsides & Hk & Hd1 & Hd2).
    unfold children, heap_after in *. rewrite Hk.
    pose proof (sprout_spec (stepped b step) sides h1) as (Hlen & _).
    pose proof (sprout_draws (stepped b step) sides h1) as Hdr.
    cbn zeta in Hlen. rewrite Hlen.
    destruct Hsides as [(_ & -> & ->) | (_ & -> & ->)];
      cbn [List.length draws] in *; repeat split; try lia.
    + intro Hnil. rewrite Hnil in Hlen. discriminate.
    + intro Hnil. rewrite Hnil in Hlen. discriminate.
Qed.

(** One call on a branch whose countdown is [Infinity]. *)
Lemma advance_disabled (b : Branch) (step : Q) (ctx : Canvas2D.t) (h : Heap) :
  nextBranchIn b = Infinity ->
  nextBranchIn (branch_after b step ctx h) = Infinity
  /\ children b step ctx h = []
  /\ heap_after b step ctx h = h.
Proof.
  intro Hinf. unfold branch_after, children, heap_after.
  destruct (advance_cases b step ctx h)
    as [[Hs E] | [(Hs & Hn & E) | (Hs & Hf & _)]].
  - rewrite E. cbn [fst snd]. repeat split. exact Hinf.
  - rewrite E. cbn [fst snd]. repeat split.
    rewrite (stepped_grow b step Hs). cbn [nextBranchIn moved].
    now rewrite Hinf.
  - exfalso. destruct Hf as (_ & Hle & _).
    rewrite (stepped_grow b step Hs) in Hle. cbn [nextBranchIn moved] in Hle.
    rewrite Hinf in Hle. exact Hle.
Qed.

(** X3.  A branch whose fork countdown is [Infinity] never forks again:
    over any number of calls it returns no child, draws no random number,
    allocates nothing, and its countdown stays [Infinity]. *)
Theorem never_forks_again
  (m : nat) (b : Branch) (ctx : Canvas2D.t) (h : Heap) :
  nextBranchIn b = Infinity ->
  nextBranchIn (grown m b ctx h) = Infinity
  /\ snd (advance_times m b ctx h) = h.
Proof.
  unfold grown. revert b ctx h. induction m as [|m IH]; intros b ctx h Hinf.
  - cbn. split; [exact Hinf | reflexivity].
  - cbn [advance_times]. rewrite bind_eq.
    destruct (advance_disabled b GROW_SPEED ctx h Hinf) as (Hn & _ & Hh).
    unfold branch_after, heap_after in *.
    destruct (advance b GROW_SPEED ctx h) as [[[b' ctx'] kids] h1].
    cbn [fst snd] in *. subst h1. now apply IH.
Qed.

Lemma Qmax0_step (r k : Q) :
  0 <= r -> 0 <= k ->
  Qmax 0 (r - Qmin GROW_SPEED r - k * GROW_SPEED)
  == Qmax 0 (r - (k + 1) * GROW_SPEED).
Proof.
  intros Hr Hk. unfold GROW_SPEED.
  destruct (Q.min_spec 7 r) as [[H1 H2] | [H1 H2]]; rewrite H2.
  - apply Q.max_compat; [reflexivity | ring].
  - destruct (Q.max_spec 0 (r - r - k * 7)) as [[H3 H4] | [H3 H4]];
      destruct (Q.max_spec 0 (r - (k + 1) * 7)) as [[H5 H6] | [H5 H6]];
      rewrite H4, H6; lra.
Qed.

(** X5.  After [m] calls in a row a branch of length [L >= 0] has
    [max(0, L - m * GROW_SPEED)] left to grow. *)
Theorem remaining_after
  (m : nat) (b : Branch) (ctx : Canvas2D.t) (h : Heap) :
  0 <= remaining b ->
  remaining (grown m b ctx h)
  == Qmax 0 (remaining b - inject_Z (Z.of_nat m) * GROW_SPEED).
Proof.
  unfold grown. revert b ctx h. induction m as [|m IH]; intros b ctx h H0.
  - cbn [advance_times ret fst]. change (inject_Z (Z.of_nat 0)) with 0.
    destruct (Q.max_spec 0 (remaining b - 0 * GROW_SPEED)) as [[H1 H2] | [H1 H2]];
      rewrite H2; lra.
  - cbn [advance_times]. rewrite bind_eq.
    assert (Hrem : remaining (branch_after b GROW_SPEED ctx h)
                   == remaining b - Qmin GROW_SPEED (remaining b)
                   /\ 0 <= remaining (branch_after b GROW_SPEED ctx h)).
    { destruct (Qlt_le_dec 0 (effective b GROW_SPEED)) as [Hs | Hs].
      - rewrite (branch_after_grow b GROW_SPEED ctx h Hs). unfold effective.
        split; [reflexivity|].
        pose proof (Q.le_min_r GROW_SPEED (remaining b)). lra.
      - unfold branch_after. rewrite (advance_idle b GROW_SPEED ctx h Hs).
        cbn [fst]. split; [|exact H0].
        unfold effective in Hs.
        destruct (Q.min_spec GROW_SPEED (remaining b)) as [[H1 H2] | [H1 H2]];
          rewrite H2 in *; unfold GROW_SPEED in *; lra. }
    unfold branch_after in Hrem.
    destruct (advance b GROW_SPEED ctx h) as [[[b1 ctx1] kids] h1].
    cbn [fst snd] in *. destruct Hrem as [Hr1 Hr0].
    rewrite (IH b1 ctx1 h1 Hr0).
    rewrite Nat2Z.inj_succ, <- Z.add_1_r, inject_Z_plus.
    change (inject_Z 1) with 1.
    rewrite <- (Qmax0_step (remaining b) (inject_Z (Z.of_nat m)) H0).
    + apply Q.max_compat; [reflexivity|]. rewrite Hr1. reflexivity.
    + change 0 with (inject_Z 0). rewrite <- Zle_Qle. lia.
Qed.

(** ** More on the frame, the pointer and clearing *)

Lemma same_frame_refl (c : Canvas2D.t) : same_frame c c.
Proof. unfold same_frame. repeat split. Qed.

Lemma same_frame_trans (c1 c2 c3 : Canvas2D.t) :
  same_frame c1 c2 -> same_frame c2 c3 -> same_frame c1 c3.
Proof.
  unfold same_frame.
  intros (A1 & A2 & A3 & A4 & A5 & A6 & A7) (B1 & B2 & B3 & B4 & B5 & B6 & B7).
  repeat split; congruence.
Qed.

Lemma advance_same_frame (b : Branch) (step : Q) (ctx : Canvas2D.t) (h : Heap) :
  same_frame (canvas_after b step ctx h) ctx.
Proof.
  unfold canvas_after.
  destruct (advance_cases b step ctx h)
    as [[Hs E] | [(Hs & Hn & E) | (Hs & Hf & sides & h1 & nx & h' & _ & _ & _ & _ & E)]];
    rewrite E; cbn [fst snd]; unfold same_frame; repeat split.
Qed.

Lemma advance_all_same_frame (bs : list Branch) (ctx : Canvas2D.t) (h : Heap) :
  same_frame (snd (fst (advance_all bs ctx h))) ctx.
Proof.
  revert ctx h. induction bs as [|b rest IH]; intros ctx h.
  - cbn. apply same_frame_refl.
  - cbn [advance_all]. rewrite bind_eq.
    pose proof (advance_same_frame b GROW_SPEED ctx h) as Hf.
    unfold canvas_after in Hf.
    destruct (advance b GROW_SPEED ctx h) as [[[b' ctx'] kids] h1].
    cbn [fst snd] in *. rewrite bind_eq.
    specialize (IH ctx' h1).
    destruct (advance_all rest ctx' h1) as [[rs ctx''] h2].
    cbn [fst snd ret] in *. eapply same_frame_trans; eassumption.
Qed.

Lemma tick_pointer (st : Frost) :
  drawing (tick st) = drawing st
  /\ lastPos (tick st) = lastPos st
  /\ distAcc (tick st) = distAcc st
  /\ planted (tick st) = planted st.
Proof.
  unfold tick. destruct (canvasRef st) as [ctx|]; [|repeat split].
  destruct (0 <? List.length (branches st))%nat; [|repeat split].
  destruct (each_branch _ _ _ _ _) as [[[keep spawned] ctx'] h'].
  repeat split.
Qed.

(** X7.  A tick never changes the pointer state nor the record of seeds
    planted; it keeps the canvas in place with its size, its stack of
    saved states and its fill style; and with an empty collection it
    changes nothing at all. *)
Theorem tick_untouched (st : Frost) :
  drawing (tick st) = drawing st
  /\ lastPos (tick st) = lastPos st
  /\ distAcc (tick st) = distAcc st
  /\ planted (tick st) = planted st
  /\ match canvasRef st, canvasRef (tick st) with
     | Some c, Some c' =>
         Canvas2D.width c' = Canvas2D.width c
         /\ Canvas2D.height c' = Canvas2D.height c
         /\ Canvas2D.saved c' = Canvas2D.saved c
         /\ Canvas2D.fillStyle (Canvas2D.style c')
            = Canvas2D.fillStyle (Canvas2D.style c)
     | None, None => True
     | _, _ => False
     end
  /\ (branches st = [] -> tick st = st).
Proof.
  destruct (tick_pointer st) as (P1 & P2 & P3 & P4).
  split; [exact P1|]. split; [exact P2|]. split; [exact P3|].
  split; [exact P4|]. split; [|apply tick_idle].
  destruct (canvasRef st) as [ctx|] eqn:Hc.
  - destruct (branches st) as [|b0 rest] eqn:Hb.
    + rewrite (tick_idle st Hb), Hc. repeat split.
    + assert (Hne : branches st <> []) by (rewrite Hb; discriminate).
      rewrite (tick_frame st ctx Hc Hne). cbn [canvasRef].
      pose proof (advance_all_same_frame (branches st) (frost_style ctx) (heap st))
        as (F1 & F2 & F3 & F4 & _).
      repeat split; assumption.
  - assert (E : tick st = st) by (unfold tick; now rewrite Hc).
    rewrite E, Hc. exact I.
Qed.

Lemma plant_fields (px py : Q) (st : Frost) :
  canvasRef (plant px py st) = canvasRef st
  /\ drawing (plant px py st) = drawing st
  /\ lastPos (plant px py st) = lastPos st
  /\ distAcc (plant px py st) = distAcc st
  /\ planted (plant px py st) = (px, py) :: planted st
  /\ branches (plant px py st)
     = branches st ++ fst (seedCrystal px py (heap st))
  /\ heap (plant px py st) = snd (seedCrystal px py (heap st)).
Proof.
  unfold plant. destruct (seedCrystal px py (heap st)) as [seeds h'].
  repeat split.
Qed.

(** What [handleMove] does while the pointer is down. *)
Lemma handleMove_idle (px py : Q) (st : Frost) :
  drawing st = false -> handleMove px py st = st.
Proof. intro H. unfold handleMove. now rewrite H. Qed.

(** X8.  A pointer event never touches the canvas and never removes a
    branch: the collection is kept and at most one seed's arms are added
    after it; an event that plants nothing leaves collection and heap as
    they were. *)
Theorem pointer_keeps (e : Event) (st : Frost) :
  pointer_event e ->
  canvasRef (step e st) = canvasRef st
  /\ (exists new, branches (step e st) = branches st ++ new)
  /\ (planted (step e st) = planted st
      \/ exists p, planted (step e st) = p :: planted st)
  /\ (planted (step e st) = planted st ->
      branches (step e st) = branches st /\ heap (step e st) = heap st).
Proof.
  assert (Hcons : forall (p : Point) (l : list Point), p :: l <> l).
  { intros p l H. apply (f_equal (@List.length Point)) in H.
    cbn in H. lia. }
  assert (Hsame : forall st', canvasRef st' = canvasRef st ->
            branches st' = branches st -> heap st' = heap st ->
            planted st' = planted st ->
            canvasRef st' = canvasRef st
            /\ (exists new, branches st' = branches st ++ new)
            /\ (planted st' = planted st
                \/ exists p, planted st' = p :: planted st)
            /\ (planted st' = planted st ->
                branches st' = branches st /\ heap st' = heap st)).
  { intros st' H1 H2 H3 H4. split; [exact H1|].
    split; [exists []; now rewrite app_nil_r|].
    split; [now left|]. intros _. now split. }
  assert (Hplant : forall st' px py,
            canvasRef st' = canvasRef st ->
            branches st' = branches st ++ fst (seedCrystal px py (heap st)) ->
            planted st' = (px, py) :: planted st ->
            canvasRef st' = canvasRef st
            /\ (exists new, branches st' = branches st ++ new)
            /\ (planted st' = planted st
                \/ exists p, planted st' = p :: planted st)
            /\ (planted st' = planted st ->
                branches st' = branches st /\ heap st' = heap st)).
  { intros st' px py H1 H2 H3. split; [exact H1|].
    split; [eexists; exact H2|].
    split; [right; eexists; exact H3|].
    intro H. exfalso. rewrite H3 in H. exact (Hcons _ _ H). }
  destruct e as [|px py|px py| |]; cbn [pointer_event step]; intro He;
    try contradiction.
  - unfold handleDown.
    destruct (plant_fields px py
                (mkFrost (canvasRef st) (branches st) true (Some (px, py)) 0
                         (heap st) (planted st)))
      as (P1 & _ & _ & _ & P5 & P6 & _).
    cbn [canvasRef branches heap planted] in *.
    now apply (Hplant _ px py).
  - destruct (drawing st) eqn:Hd.
    2:{ rewrite (handleMove_idle px py st Hd). now apply Hsame. }
    destruct (lastPos st) as [lp|] eqn:Hl.
    2:{ assert (E : handleMove px py st = st)
          by (unfold handleMove; now rewrite Hd, Hl).
        rewrite E. now apply Hsame. }
    destruct (handleMove_drawing px py st lp Hd Hl) as [[_ E] | [_ E]];
      rewrite E.
    + now apply Hsame.
    + now apply (Hplant _ px py).
  - unfold handleUp. now apply Hsame.
Qed.

(** X9.  Once the pointer is up, moves and further releases change
    nothing: a move with no start before it is ignored, and releasing is
    idempotent. *)
Theorem moves_after_up (es : list Event) (st : Frost) :
  Forall idle_event es ->
  run es (handleUp st) = handleUp st.
Proof.
  intro Hall. induction Hall as [|e es He _ IH]; [reflexivity|].
  cbn [run fold_left]. fold (run es).
  assert (E : step e (handleUp st) = handleUp st).
  { destruct e; cbn [idle_event] in He; try contradiction; cbn [step].
    - now apply handleMove_idle.
    - reflexivity. }
  rewrite E. exact IH.
Qed.

Lemma steady_step (e : Event) (st : Frost) :
  (forall a b, 0 <= hypot a b) -> steady st -> steady (step e st).
Proof.
  intros Hh (H0 & H1 & H2). unfold steady.
  destruct e as [|px py|px py| |]; cbn [step].
  - destruct (tick_pointer st) as (T1 & T2 & T3 & _).
    rewrite T1, T2, T3. repeat split; assumption.
  - unfold handleDown.
    destruct (plant_fields px py
                (mkFrost (canvasRef st) (branches st) true (Some (px, py)) 0
                         (heap st) (planted st)))
      as (_ & P2 & P3 & P4 & _).
    cbn [drawing lastPos distAcc] in *. rewrite P3, P4.
    split; [lra|]. split; [reflexivity|]. intros _. discriminate.
  - destruct (drawing st) eqn:Hd.
    2:{ rewrite (handleMove_idle px py st Hd), Hd.
        split; [exact H0|]. split; [exact H1|]. discriminate. }
    destruct (lastPos st) as [lp|] eqn:Hl; [|exfalso; now apply H2].
    pose proof (Hh (b64 (px - fst lp)) (b64 (py - snd lp))) as Hd0.
    destruct (handleMove_drawing px py st lp Hd Hl) as [[Ha E] | [Ha E]];
      rewrite E; cbn [drawing lastPos distAcc]; unfold bumped in *.
    + split; [apply b64_nonneg; lra|]. split; [exact Ha|].
      intros _. discriminate.
    + split; [lra|]. split; [reflexivity|]. intros _. discriminate.
  - unfold handleUp. cbn [drawing lastPos distAcc].
    split; [exact H0|]. split; [exact H1|]. discriminate.
  - unfold clear. destruct (canvasRef st);
      cbn [drawing lastPos distAcc]; repeat split; assumption.
Qed.

(** X10.  In every state the mounted component can reach, the accumulated
    distance is at least 0 and below [SPAWN_DIST], and while the pointer is
    down a last position is recorded. *)
Theorem accumulator_bounded (w h : Z) (es : list Event) :
  (forall a b, 0 <= hypot a b) ->
  steady (run es (mounted w h)).
Proof.
  intro Hh.
  assert (H : forall st, steady st -> steady (run es st)).
  { induction es as [|e es IH]; intros st Hst; [exact Hst|].
    cbn [run fold_left]. apply IH. now apply steady_step. }
  apply H. unfold steady, mounted; cbn [distAcc drawing lastPos].
  repeat split; try discriminate; unfold SPAWN_DIST; lra.
Qed.

(** X12.  Clearing keeps the pointer state, the heap and the record of
    seeds planted, and on the canvas everything but the pixels; and after
    a clear the frames change nothing until a seed is planted. *)
Theorem clear_keeps (st : Frost) :
  drawing (clear st) = drawing st
  /\ lastPos (clear st) = lastPos st
  /\ distAcc (clear st) = distAcc st
  /\ heap (clear st) = heap st
  /\ planted (clear st) = planted st
  /\ match canvasRef st, canvasRef (clear st) with
     | Some c, Some c' =>
         Canvas2D.width c' = Canvas2D.width c
         /\ Canvas2D.height c' = Canvas2D.height c
         /\ Canvas2D.style c' = Canvas2D.style c
         /\ Canvas2D.saved c' = Canvas2D.saved c
         /\ Canvas2D.path c' = Canvas2D.path c
     | None, None => True
     | _, _ => False
     end
  /\ (forall n, frames n (clear st) = clear st).
Proof.
  destruct (canvasRef st) as [canvas|] eqn:Hc.
  - rewrite (clear_mounted st canvas Hc).
    cbn [drawing lastPos distAcc heap planted canvasRef
         Canvas2D.width Canvas2D.height Canvas2D.style Canvas2D.saved
         Canvas2D.path].
    repeat split. intro n. now apply frames_idle.
  - assert (E : clear st = st) by (unfold clear; now rewrite Hc).
    rewrite E, Hc. repeat split.
    intro n. induction n as [|n IH]; [reflexivity|].
    rewrite frames_S, IH. unfold tick. now rewrite Hc.
Qed.

(** X13.  In every state the mounted component can reach, the canvas is
    in place and the branches of the collection are distinct objects, each
    one allocated: no branch is in the collection twice, so none is
    advanced twice in a frame. *)
Theorem distinct_objects (w h : Z) (es : list Event) :
  let st := run es (mounted w h) in
  canvasRef st <> None
  /\ NoDup (oids (branches st))
  /\ Forall (fun b => (oid b < List.length (born (heap st)))%nat)
            (branches st).
Proof.
  intro st. destruct (wf_run es (mounted w h) (wf_mounted w h)) as (W1 & W2 & W3).
  fold st in W1, W2, W3. repeat split; try assumption.
  unfold oids in W3. rewrite Forall_map in W3. exact W3.
Qed.

(** ** Resizing *)

Lemma over_opaque (src dst : Colour) : opaque src = true -> over src dst = src.
Proof. intro H. unfold over. now rewrite H. Qed.

(** X14.  Resizing never touches the branches, the pointer state, the heap
    or the record of seeds planted; with a canvas that has no width or no
    height it changes nothing at all. *)
Theorem resize_keeps (innerWidth innerHeight : Z) (st : Frost) :
  branches (onResize innerWidth innerHeight st) = branches st
  /\ drawing (onResize innerWidth innerHeight st) = drawing st
  /\ lastPos (onResize innerWidth innerHeight st) = lastPos st
  /\ distAcc (onResize innerWidth innerHeight st) = distAcc st
  /\ heap (onResize innerWidth innerHeight st) = heap st
  /\ planted (onResize innerWidth innerHeight st) = planted st
  /\ (forall c, canvasRef st = Some c ->
      (Canvas2D.width c <= 0 \/ Canvas2D.height c <= 0)%Z ->
      onResize innerWidth innerHeight st = st).
Proof.
  unfold onResize. destruct (canvasRef st) as [canvas|] eqn:Hc.
  - destruct ((Canvas2D.width canvas <=? 0) || (Canvas2D.height canvas <=? 0))%Z
      eqn:Hz.
    + repeat split.
    + cbn [branches drawing lastPos distAcc heap planted]. repeat split.
      intros c Hc' Hzero. injection Hc' as <-.
      apply orb_false_iff in Hz. destruct Hz as [Hw Hh].
      apply Z.leb_gt in Hw, Hh. lia.
  - repeat split.
Qed.

(** X15.  On a canvas with a width and a height, resizing gives the canvas
    the size of the window; on the new surface a pixel outside the old
    surface has the base colour and an opaque pixel of the old surface is
    kept; so a surface that was all of the base colour still is. *)
Theorem resize_picture
  (innerWidth innerHeight : Z) (st : Frost) (c : Canvas2D.t) :
  canvasRef st = Some c ->
  (0 < Canvas2D.width c)%Z -> (0 < Canvas2D.height c)%Z ->
  exists c',
    canvasRef (onResize innerWidth innerHeight st) = Some c'
    /\ Canvas2D.width c' = innerWidth
    /\ Canvas2D.height c' = innerHeight
    /\ (forall px py,
          (0 <= px < innerWidth)%Z -> (0 <= py < innerHeight)%Z ->
          if Canvas2D.inside 0 0 (Canvas2D.width c) (Canvas2D.height c) px py
          then opaque (Canvas2D.pixels c px py) = true ->
               Canvas2D.pixels c' px py = Canvas2D.pixels c px py
          else Canvas2D.pixels c' px py = BG)
    /\ (all_BG c -> all_BG c').
Proof.
  intros Hc Hw Hh. unfold onResize. rewrite Hc.
  assert (Hz : ((Canvas2D.width c <=? 0) || (Canvas2D.height c <=? 0))%Z = false).
  { apply orb_false_iff. split; apply Z.leb_gt; assumption. }
  rewrite Hz. eexists. split; [reflexivity|]. unfold all_BG.
  cbn [drawImage reset_canvas Canvas2D.fillRect Canvas2D.set_fillStyle
       Canvas2D.with_style Canvas2D.width Canvas2D.height Canvas2D.pixels
       Canvas2D.style Canvas2D.fillStyle].
  assert (Hpix : forall px py,
            (0 <= px < innerWidth)%Z -> (0 <= py < innerHeight)%Z ->
            if Canvas2D.inside 0 0 (Canvas2D.width c) (Canvas2D.height c) px py
            then opaque (Canvas2D.pixels c px py) = true ->
                 (if Canvas2D.inside 0 0 (Canvas2D.width c) (Canvas2D.height c) px py
                  then over (if Canvas2D.inside 0 0 (Canvas2D.width c)
                                  (Canvas2D.height c) px py
                             then over (Canvas2D.pixels c px py) (Rgba 0 0 0 0)
                             else Rgba 0 0 0 0)
                            (if Canvas2D.inside 0 0 innerWidth innerHeight px py
                             then BG else Rgba 0 0 0 0)
                  else if Canvas2D.inside 0 0 innerWidth innerHeight px py
                       then BG else Rgba 0 0 0 0)
                 = Canvas2D.pixels c px py
            else (if Canvas2D.inside 0 0 (Canvas2D.width c) (Canvas2D.height c) px py
                  then over (if Canvas2D.inside 0 0 (Canvas2D.width c)
                                  (Canvas2D.height c) px py
                             then over (Canvas2D.pixels c px py) (Rgba 0 0 0 0)
                             else Rgba 0 0 0 0)
                            (if Canvas2D.inside 0 0 innerWidth innerHeight px py
                             then BG else Rgba 0 0 0 0)
                  else if Canvas2D.inside 0 0 innerWidth innerHeight px py
                       then BG else Rgba 0 0 0 0)
                 = BG).
  { intros px py Hx Hy.
    rewrite (inside_surface innerWidth innerHeight px py Hx Hy).
    destruct (Canvas2D.inside 0 0 (Canvas2D.width c) (Canvas2D.height c) px py);
      [|reflexivity].
    intro Hop. rewrite (over_opaque _ _ Hop). now apply over_opaque. }
  repeat split.
  - exact Hpix.
  - intros Hbg px py Hx Hy.
    cbn [Canvas2D.width Canvas2D.height Canvas2D.pixels] in *.
    specialize (Hpix px py Hx Hy).
    destruct (Canvas2D.inside 0 0 (Canvas2D.width c) (Canvas2D.height c) px py)
      eqn:Hin; [|exact Hpix].
    assert (Hold : Canvas2D.pixels c px py = BG).
    { apply Hbg; unfold Canvas2D.inside in Hin;
        rewrite !andb_true_iff, !Z.leb_le, !Z.ltb_lt in Hin; lia. }
    rewrite Hpix; [exact Hold | now rewrite Hold].
Qed.

(** ** More with draws in [0, 1) *)

Section InRangeMore.

Hypothesis rnd_range : forall n, 0 <= rnd n /\ rnd n < 1.

(** The fields of the arms, arm by arm. *)
Lemma arms_detail (x0 y0 : Q) (numArms : Z) (n : nat) (i : Z) (h : Heap) :
  forall (k : nat) (b : Branch),
    nth_error (fst (arms x0 y0 numArms n i h)) k = Some b ->
    exists j1 j2 j3 j4 j5,
      angle b = inject_Z (i + Z.of_nat k) / inject_Z numArms * PI * 2
                + (rnd j1 - 0.5) * 0.5
      /\ remaining b = 55 + rnd j3 * 70
      /\ curlRate b = (if gtb (rnd j2) 0.5 then 1 else -1)
                      * (0.018 + rnd j4 * 0.022)
      /\ nextBranchIn b = Fin (remaining b * (0.22 + rnd j5 * 0.2))
      /\ alpha b = 0.88 /\ lineWidth b = 1.5.
Proof.
  revert i h. induction n as [|n IH]; intros i h k b Hk.
  - cbn in Hk. destruct k; discriminate.
  - cbn -[Qmult Qplus Qminus Qdiv inject_Z] in Hk.
    rewrite bind_eq in Hk. cbn -[Qmult Qplus Qminus Qdiv inject_Z] in Hk.
    match type of Hk with context [arms x0 y0 numArms n ?j ?h1] =>
      specialize (IH j h1); destruct (arms x0 y0 numArms n j h1) as [rest h2] end.
    cbn -[Qmult Qplus Qminus Qdiv inject_Z] in *.
    destruct k as [|k].
    + cbn [nth_error] in Hk. injection Hk as <-.
      cbn -[Qmult Qplus Qminus Qdiv inject_Z].
      rewrite Z.add_0_r.
      do 5 eexists. repeat split.
    + cbn [nth_error] in Hk. destruct (IH k b Hk) as (j1 & j2 & j3 & j4 & j5 & H).
      exists j1, j2, j3, j4, j5.
      replace (i + Z.of_nat (S k))%Z with (i + 1 + Z.of_nat k)%Z by lia.
      exact H.
Qed.

(** X16.  The arms of a seed are spread around the circle: the arm of rank
    [k] out of [n] points within 0.26 rad of [k / n] of a turn.  Each arm
    has a length in [55, 125), a curl rate of magnitude between 0.017 and
    0.041, a fork countdown between 21% and 43% of its length, alpha 0.88
    and line width 1.5.  (The source draws the jitter within 0.25 rad, the
    curl rate from 0.018 to 0.04 and the countdown from 22% to 42%; the
    bounds are stated with a margin, so that they also hold of the rounded
    binary64 values, which reach the end points.) *)
Theorem seed_geometry (x0 y0 : Q) (h : Heap) (k : nat) (b : Branch) :
  let seeds := fst (seedCrystal x0 y0 h) in
  let n := Z.of_nat (List.length seeds) in
  nth_error seeds k = Some b ->
  let turn := inject_Z (Z.of_nat k) / inject_Z n * PI * 2 in
  turn - 0.26 < angle b /\ angle b < turn + 0.26
  /\ 55 <= remaining b /\ remaining b < 125
  /\ ((0.017 < curlRate b /\ curlRate b < 0.041)
      \/ (- (0.041) < curlRate b /\ curlRate b < - (0.017)))
  /\ (exists f, nextBranchIn b = Fin f
                /\ 0.21 * remaining b < f /\ f < 0.43 * remaining b)
  /\ alpha b = 0.88 /\ lineWidth b = 1.5.
Proof.
  intros seeds n Hk turn. unfold turn. clear turn.
  pose proof (seedCrystal_spec x0 y0 h) as (Hlen & _).
  fold seeds in Hlen.
  pose proof (numArms_range rnd_range (draws h)) as Hn.
  assert (En : n = (3 + Qfloor (rnd (draws h) * 4))%Z)
    by (unfold n; rewrite Hlen; lia).
  unfold seeds, seedCrystal in Hk. rewrite bind_eq in Hk.
  cbn [random fst snd] in Hk. rewrite <- En in Hk.
  destruct (arms_detail _ _ _ _ _ _ k b Hk)
    as (j1 & j2 & j3 & j4 & j5 & Ha & Hr & Hc & Hf & Hal & Hw).
  rewrite Z.add_0_l in Ha.
  destruct (rnd_range j1), (rnd_range j3), (rnd_range j4), (rnd_range j5).
  rewrite Ha, Hc, Hf, Hr.
  split; [lra|]. split; [lra|]. split; [lra|]. split; [lra|].
  split.
  { destruct (gtb (rnd j2) 0.5); [left | right]; split; lra. }
  split; [|split; assumption].
  eexists. split; [reflexivity|]. split; nra.
Qed.

(** The fields of the children, child by child. *)
Lemma sprout_detail (p : Branch) (sides : list Q) (h : Heap) :
  Forall2 (fun side c =>
             exists j1 j2 j3 j4,
               angle c = angle p + side * (PI / 3 + (rnd j1 - 0.5) * 0.55)
               /\ remaining c = remaining p * (0.48 + rnd j2 * 0.22)
               /\ curlRate c = (rnd j3 - 0.5) * 0.042
               /\ nextBranchIn c = Fin (remaining c * (0.28 + rnd j4 * 0.32)))
          sides (fst (sprout p sides h)).
Proof.
  revert h. induction sides as [|side more IH]; intro h.
  - cbn. constructor.
  - cbn -[Qmult Qplus Qminus Qdiv].
    rewrite bind_eq. cbn -[Qmult Qplus Qminus Qdiv].
    match goal with |- context [sprout p more ?h1] =>
      specialize (IH h1); destruct (sprout p more h1) as [rest h2] end.
    cbn -[Qmult Qplus Qminus Qdiv] in *.
    constructor; [|exact IH].
    do 4 eexists. cbn -[Qmult Qplus Qminus Qdiv]. repeat split.
Qed.

(** X17.  Every child of a fork turns away from its parent's heading by
    between [PI/3 - 0.28] and [PI/3 + 0.28], to the left or to the right;
    it is given between 47% and 71% of what its parent has left (more than
    2.8), a curl rate of magnitude below 0.022, and a fork countdown
    between 27% and 61% of its own length.  (The source draws the spread
    within 0.275 of [PI/3], the length from 48% to 70%, the curl rate
    within 0.021 and the countdown from 28% to 60%; the bounds are stated
    with a margin, so that they also hold of the rounded binary64 values,
    which reach the end points.) *)
Theorem children_geometry
  (b : Branch) (step : Q) (ctx : Canvas2D.t) (h : Heap) :
  let b' := branch_after b step ctx h in
  Forall (fun c =>
            (exists side spread,
                (side = 1 \/ side = -1)
                /\ angle c = angle b' + side * spread
                /\ PI / 3 - 0.28 < spread /\ spread < PI / 3 + 0.28)
            /\ 0.47 * remaining b' < remaining c
            /\ remaining c < 0.71 * remaining b'
            /\ 2.8 < remaining c
            /\ - (0.022) < curlRate c /\ curlRate c < 0.022
            /\ exists f, nextBranchIn c = Fin f
                         /\ 0.27 * remaining c < f /\ f < 0.61 * remaining c)
         (children b step ctx h).
Proof.
  intro b'.
  destruct (advance_cases b step ctx h)
    as [[Hs E] | [(Hs & Hn & E) | (Hs & Hf & _)]].
  - unfold children. rewrite E. constructor.
  - unfold children. rewrite E. constructor.
  - destruct (advance_fork_sides b step ctx h Hs Hf)
      as (sides & h1 & Hsides & Hk & _).
    rewrite Hk.
    assert (Hb' : angle b' = angle (stepped b step)
                  /\ remaining b' = remaining (stepped b step)).
    { unfold b'. destruct (branch_after_stepped b step ctx h) as [next ->].
      split; reflexivity. }
    destruct Hb' as [Ea Er]. rewrite Ea, Er.
    destruct Hf as (_ & _ & _ & H6).
    assert (Hin : Forall (fun side => side = 1 \/ side = -1) sides).
    { destruct Hsides as [(_ & -> & _) | (_ & -> & _)].
      - constructor; [now right | constructor; [now left | constructor]].
      - constructor; [|constructor].
        destruct (gtb _ _); [now left | now right]. }
    pose proof (sprout_detail (stepped b step) sides h1) as Hd.
    clear Hsides Hk.
    revert Hin Hd. generalize (fst (sprout (stepped b step) sides h1)).
    induction sides as [|side more IH]; intros kids Hin Hd.
    + inversion Hd; subst. constructor.
    + inversion Hd as [|? c ? rest (j1 & j2 & j3 & j4 & A & R & C & F) Hrest];
        subst.
      inversion Hin as [|? ? Hside Hmore]; subst.
      constructor; [|exact (IH rest Hmore Hrest)].
      destruct (rnd_range j1), (rnd_range j2), (rnd_range j3), (rnd_range j4).
      split.
      { exists side, (PI / 3 + (rnd j1 - 0.5) * 0.55).
        split; [exact Hside|]. split; [exact A|]. split; lra. }
      assert (Hc0 : 2.8 < remaining c) by (rewrite R; nra).
      rewrite C, F.
      split; [rewrite R; nra|]. split; [rewrite R; nra|].
      split; [exact Hc0|].
      split; [lra|]. split; [lra|].
      eexists. split; [reflexivity|].
      generalize dependent (remaining c). intros rc _ _ Hrc. split; nra.
Qed.

(** X18.  After a call that forks, the parent's countdown is [Infinity]
    when it has 14 or less left to grow, and otherwise between 34% and
    71% of what it has left; after a call that steps without forking the
    countdown has gone down by the effective step.  (The source draws the
    new countdown from 35% to 70%; the bounds are stated with a margin, so
    that they also hold of the rounded binary64 values, which reach the
    end points.) *)
Theorem countdown_rescheduled
  (b : Branch) (step : Q) (ctx : Canvas2D.t) (h : Heap) :
  let b' := branch_after b step ctx h in
  0 < effective b step ->
  (children b step ctx h = [] ->
   nextBranchIn b' = Num_sub (nextBranchIn b) (effective b step))
  /\ (children b step ctx h <> [] ->
      (remaining b' <= 14 /\ nextBranchIn b' = Infinity)
      \/ (14 < remaining b'
          /\ exists f, nextBranchIn b' = Fin f
                       /\ 0.34 * remaining b' < f
                       /\ f < 0.71 * remaining b')).
Proof.
  intros b' Hpos. unfold b', branch_after, children.
  destruct (advance_cases b step ctx h)
    as [[Hs E] | [(Hs & Hn & E) | (Hs & Hf & sides & h1 & next & h' & Hne & _ & _ & Hre & E)]];
    rewrite E; cbn [fst snd].
  - exfalso. lra.
  - split; [|intro H; now contradiction H].
    intros _. rewrite (stepped_grow b step Hs). reflexivity.
  - assert (Hkids : fst (sprout (stepped b step) sides h1) <> []).
    { pose proof (sprout_spec (stepped b step) sides h1) as (Hlen & _).
      intro Hnil. cbn zeta in Hlen. rewrite Hnil in Hlen.
      destruct sides; [congruence | discriminate]. }
    split; [intro H; now contradiction Hkids|].
    intros _. cbn [remaining nextBranchIn set_nextBranchIn].
    destruct Hre as [[H14 ->] | [H14 [k ->]]].
    + left. split; [exact H14 | reflexivity].
    + right. split; [exact H14|].
      destruct (rnd_range k). eexists. split; [reflexivity|]. split; nra.
Qed.

(** *** The ranges of the branches of a run *)

Lemma arm_in_ranges (x0 y0 : Q) (b : Branch) :
  arm_of x0 y0 b -> in_ranges b.
Proof.
  intro H. destruct (arm_length rnd_range x0 y0 b H) as [H1 H2].
  destruct H as (_ & _ & Hd & Ha & Hw & _).
  unfold in_ranges. rewrite Hd, Ha, Hw. unfold MAX_DEPTH.
  repeat split; try lra; lia.
Qed.

Lemma advance_in_ranges (b : Branch) (step : Q) (ctx : Canvas2D.t) (h : Heap) :
  in_ranges b ->
  (alive (branch_after b step ctx h) = true ->
   in_ranges (branch_after b step ctx h))
  /\ Forall in_ranges (children b step ctx h).
Proof.
  intros (R0 & R1 & [Rd0 Rd1] & Ra0 & Ra1 & Rw0 & Rw1).
  unfold branch_after, children.
  destruct (advance_cases b step ctx h)
    as [[Hs E] | [(Hs & Hn & E) | (Hs & Hf & sides & h1 & next & h' & _ & _ & _ & _ & E)]];
    rewrite E; cbn [fst snd].
  - split; [|constructor]. intros _. unfold in_ranges. repeat split; assumption.
  - split; [|constructor]. unfold alive. rewrite gtb_true.
    rewrite (stepped_grow b step Hs). unfold in_ranges.
    cbn [remaining depth alpha lineWidth moved]. intro Hal.
    repeat split; try assumption; lra.
  - destruct Hf as (_ & _ & Hd1 & H6).
    pose proof (sprout_spec (stepped b step) sides h1) as (_ & Hall & _).
    cbn zeta in Hall.
    rewrite (stepped_grow b step Hs) in *.
    cbn [remaining depth alpha lineWidth moved] in *.
    split.
    + unfold alive, in_ranges.
      cbn [remaining depth alpha lineWidth moved set_nextBranchIn].
      intros _. repeat split; try assumption; lra.
    + eapply Forall_impl; [|exact Hall].
      intros c Hc. destruct (child_length rnd_range _ c Hc) as [C0 C1].
      { cbn [remaining moved]. exact H6. }
      destruct Hc as (_ & _ & Hcd & Hca & Hcw & _).
      cbn [remaining depth alpha lineWidth moved] in *.
      unfold in_ranges. rewrite Hcd, Hca, Hcw. unfold MAX_DEPTH in *.
      repeat split; try lra; lia.
Qed.

Lemma advance_all_in_ranges (bs : list Branch) (ctx : Canvas2D.t) (h : Heap) :
  Forall in_ranges bs ->
  let r := advance_all bs ctx h in
  Forall in_ranges (filter alive (map fst (fst (fst r)))
                    ++ List.concat (map snd (fst (fst r)))).
Proof.
  revert ctx h. induction bs as [|b rest IH]; intros ctx h Hall.
  - cbn. constructor.
  - inversion Hall as [|? ? Hb Hrest]; subst.
    cbn [advance_all]. rewrite bind_eq.
    pose proof (advance_in_ranges b GROW_SPEED ctx h Hb) as (Ha & Hk).
    unfold branch_after, children in *.
    destruct (advance b GROW_SPEED ctx h) as [[[b' ctx'] kids] h1].
    cbn [fst snd] in *. rewrite bind_eq.
    specialize (IH ctx' h1 Hrest).
    destruct (advance_all rest ctx' h1) as [[rs ctx''] h2].
    cbn [fst snd ret map filter List.concat] in *.
    apply Forall_app in IH. destruct IH as [IH1 IH2].
    apply Forall_app. split.
    + destruct (alive b') eqn:Hal; [|exact IH1].
      constructor; [now apply Ha | exact IH1].
    + apply Forall_app. split; assumption.
Qed.

Lemma plant_in_ranges (px py : Q) (st : Frost) :
  Forall in_ranges (branches st) ->
  Forall in_ranges (branches (plant px py st)).
Proof.
  intro H. destruct (plant_fields px py st) as (_ & _ & _ & _ & _ & -> & _).
  apply Forall_app. split; [exact H|].
  pose proof (seedCrystal_spec px py (heap st)) as (_ & Hall & _).
  eapply Forall_impl; [|exact Hall]. intros b Hb.
  now apply (arm_in_ranges px py).
Qed.

Lemma step_in_ranges (e : Event) (st : Frost) :
  Forall in_ranges (branches st) ->
  Forall in_ranges (branches (step e st)).
Proof.
  intro H. destruct e as [|px py|px py| |]; cbn [step].
  - destruct (canvasRef st) as [ctx|] eqn:Hc.
    2:{ unfold tick. now rewrite Hc. }
    destruct (branches st) as [|b0 rest] eqn:Hb.
    { rewrite (tick_idle st Hb), Hb. constructor. }
    assert (Hne : branches st <> []) by (rewrite Hb; discriminate).
    rewrite (tick_frame st ctx Hc Hne). cbn [branches].
    apply advance_all_in_ranges. now rewrite Hb.
  - unfold handleDown. now apply plant_in_ranges.
  - destruct (drawing st) eqn:Hd.
    2:{ now rewrite (handleMove_idle px py st Hd). }
    destruct (lastPos st) as [lp|] eqn:Hl.
    2:{ unfold handleMove. now rewrite Hd, Hl. }
    destruct (handleMove_drawing px py st lp Hd Hl) as [[_ E] | [_ E]];
      rewrite E; cbn [branches]; [exact H|].
    pose proof (plant_in_ranges px py st H) as Hp.
    destruct (plant_fields px py st) as (_ & _ & _ & _ & _ & Eb & _).
    now rewrite Eb in Hp.
  - exact H.
  - unfold clear. destruct (canvasRef st); [constructor | exact H].
Qed.

Lemma run_in_ranges (es : list Event) (st : Frost) :
  Forall in_ranges (branches st) ->
  Forall in_ranges (branches (run es st)).
Proof.
  revert st. induction es as [|e es IH]; intros st H; [exact H|].
  cbn [run fold_left]. apply IH. now apply step_in_ranges.
Qed.

(** X19.  In every state the mounted component can reach, every branch of
    the collection has a length left in (0, 125), a depth from 1 to
    [MAX_DEPTH], an alpha in (0, 0.88] and a line width in (0, 1.5]. *)
Theorem branches_in_ranges (w h : Z) (es : list Event) :
  Forall in_ranges (branches (run es (mounted w h))).
Proof.
  apply run_in_ranges. constructor.
Qed.

(** X20.  In every state the mounted component can reach, a tick draws
    exactly one segment for each branch of the collection. *)
Theorem tick_draws_each (w h : Z) (es : list Event) :
  let st := run es (mounted w h) in
  segments (tick st) = (segments st + List.length (branches st))%nat.
Proof.
  intro st.
  assert (Hpos : Forall (fun b => 0 < remaining b) (branches st)).
  { eapply Forall_impl; [|apply (run_in_ranges es (mounted w h)); constructor].
    intros b Hb. apply Hb. }
  destruct (wf_run es (mounted w h) (wf_mounted w h)) as (Wc & _).
  fold st in Wc.
  destruct (canvasRef st) as [ctx|] eqn:Hc; [|congruence].
  destruct (branches st) as [|b0 rest] eqn:Hb.
  { rewrite (tick_idle st Hb). cbn [List.length]. lia. }
  assert (Hne : branches st <> []) by (rewrite Hb; discriminate).
  rewrite <- Hb in *.
  rewrite (tick_frame st ctx Hc Hne). unfold segments. rewrite Hc.
  cbn [canvasRef].
  destruct (advance_all_count (branches st) (frost_style ctx) (heap st) Hpos)
    as [Hseg _].
  cbn zeta in Hseg. rewrite Hseg. reflexivity.
Qed.

End InRangeMore.

End Growth.

(** ** The sample host is a host *)

Lemma lcg_range (n : nat) : 0 <= lcg n /\ lcg n < 1.
Proof.
  unfold lcg.
  pose proof (Z.mod_pos_bound (Z.of_nat n * 37 + 11) 100 eq_refl) as [H0 H1].
  unfold Qle, Qlt; simpl. lia.
Qed.

Lemma hypot_fix_nonneg (a b : Q) : 0 <= hypot_fix a b.
Proof.
  unfold hypot_fix, Qle; simpl.
  rewrite Z.mul_1_r. apply Z.sqrt_nonneg.
Qed.

(** ** The properties on the sample host *)

Lemma advance_remaining_witness :
  let b := twig 10 in
  let b' := branch_after cos_fix sin_fix lcg plot b GROW_SPEED blank (mkHeap 0 []) in
  0 <= remaining b /\ 0 <= GROW_SPEED
  /\ 0 <= remaining b'
  /\ remaining b' == remaining b - effective b GROW_SPEED.
Proof.
  intros b b'.
  assert (Hr : 0 <= remaining b) by (vm_compute; discriminate).
  assert (Hs : 0 <= GROW_SPEED) by (vm_compute; discriminate).
  destruct (advance_remaining cos_fix sin_fix lcg plot b GROW_SPEED blank
              (mkHeap 0 []) Hr Hs) as (H0 & H1 & _).
  split; [exact Hr|]. split; [exact Hs|]. split; [exact H0 | exact H1].
Defined.

Lemma advance_tip_witness :
  let b := twig 10 in
  let b' := branch_after cos_fix sin_fix lcg plot b 7 blank (mkHeap 0 []) in
  angle b' = angle b + curlRate b * effective b 7
  /\ Canvas2D.stroked (canvas_after cos_fix sin_fix lcg plot b 7 blank (mkHeap 0 []))
     = [Canvas2D.mkSegment (x b, y b) (x b', y b')
          (Rgba 210 235 255 (toFixed2 (alpha b))) (lineWidth b)].
Proof.
  intros b b'.
  assert (Hr : 0 < remaining b) by reflexivity.
  assert (Hs : 0 < 7) by reflexivity.
  destruct (advance_tip cos_fix sin_fix lcg plot b 7 blank (mkHeap 0 []) Hr Hs)
    as (Ha & _ & _ & Hseg).
  split; [exact Ha | exact Hseg].
Defined.

Lemma advance_forks_witness :
  let b := mkBranch 0 0 0 0 0.01 20 (Fin 3) 0.88 1.5 1 in
  (depth b <= 1)%Z
  /\ children cos_fix sin_fix lcg plot b 7 blank (mkHeap 0 []) = [].
Proof.
  intro b.
  assert (Hd : (depth b <= 1)%Z) by (vm_compute; discriminate).
  split; [exact Hd|].
  exact (proj2 (advance_forks cos_fix sin_fix lcg plot b 7 blank
                  (mkHeap 0 [])) Hd).
Defined.

Lemma advance_children_witness :
  let b := twig 20 in
  let b' := branch_after cos_fix sin_fix lcg plot b 7 blank (mkHeap 0 []) in
  let kids := children cos_fix sin_fix lcg plot b 7 blank (mkHeap 0 []) in
  kids <> [] /\ 0 < alpha b' /\ 0 < lineWidth b'
  /\ Forall (fun c => alpha c < alpha b' /\ lineWidth c < lineWidth b') kids.
Proof.
  intros b b' kids.
  assert (Hk : kids <> []) by (vm_compute; discriminate).
  assert (Ha : 0 < alpha b') by (vm_compute; reflexivity).
  assert (Hw : 0 < lineWidth b') by (vm_compute; reflexivity).
  destruct (advance_children cos_fix sin_fix lcg plot b 7 blank (mkHeap 0 []))
    as [_ H].
  repeat split; try assumption.
  eapply Forall_impl; [|exact H].
  intros c (_ & _ & _ & H1 & H2 & _).
  split; [exact (H1 Ha) | exact (H2 Hw)].
Defined.

Lemma tick_collection_witness :
  let st := run cos_fix sin_fix hypot_fix lcg plot [Down 100 100]
                (mounted 800 600) in
  branches st <> []
  /\ exists ctx, canvasRef st = Some ctx
     /\ oids (map fst (fst (fst (advance_all cos_fix sin_fix lcg plot
                                   (branches st) (frost_style ctx) (heap st)))))
        = oids (branches st).
Proof.
  intro st.
  assert (Hne : branches st <> []) by (vm_compute; discriminate).
  split; [exact Hne|].
  destruct (tick_collection cos_fix sin_fix hypot_fix lcg plot 800 600
              [Down 100 100] Hne) as (ctx & Hc & Ho & _).
  exists ctx. split; [exact Hc | exact Ho].
Defined.

Lemma seedCrystal_arms_witness :
  let seeds := fst (seedCrystal lcg 100 100 (mkHeap 0 [])) in
  (3 <= List.length seeds <= 6)%nat
  /\ Forall (fun b => x b = 100 /\ y b = 100 /\ depth b = MAX_DEPTH) seeds.
Proof.
  exact (seedCrystal_arms lcg lcg_range 100 100 (mkHeap 0 [])).
Defined.

Lemma growth_ends_witness :
  exists n : nat,
    forall m : nat, (n <= m)%nat ->
      branches (frames cos_fix sin_fix lcg plot m
                  (plant lcg 100 100 (mounted 800 600))) = [].
Proof.
  apply (growth_ends cos_fix sin_fix lcg plot lcg_range (mounted 800 600)
           100 100).
  - discriminate.
  - reflexivity.
Defined.

Lemma segments_drawn_witness :
  let final := frames cos_fix sin_fix lcg plot 18
                 (plant lcg 100 100 (mounted 800 600)) in
  branches final = []
  /\ Z.of_nat (segments final) = total_due (born (heap final)).
Proof.
  intro final.
  assert (He : branches final = []) by (vm_compute; reflexivity).
  split; [exact He|].
  exact (proj1 (segments_drawn cos_fix sin_fix lcg plot lcg_range 800 600
                  100 100 18 He)).
Defined.

(** C8 as it was stated fails: in this complete run 20 branches are
    created and 75 segments are drawn. *)
Lemma segments_drawn_counterexample :
  let final := frames cos_fix sin_fix lcg plot 18
                 (plant lcg 100 100 (mounted 800 600)) in
  branches final = []
  /\ segments final = 75%nat
  /\ List.length (born (heap final)) = 20%nat
  /\ segments final <> List.length (born (heap final)).
Proof.
  intro final.
  assert (H1 : branches final = []) by (vm_compute; reflexivity).
  assert (H2 : segments final = 75%nat) by (vm_compute; reflexivity).
  assert (H3 : List.length (born (heap final)) = 20%nat)
    by (vm_compute; reflexivity).
  split; [exact H1|]. split; [exact H2|]. split; [exact H3|].
  rewrite H2, H3. discriminate.
Qed.


(** Why [hits_exactly] asks for exact sums: on the strides
    [6.5 - 2^-50] and [6.5] the sum of the accumulator rounds to 13 and a
    second seed is planted, though the distance travelled stays below the
    threshold. *)
Lemma accumulator_rounds :
  let x0 : Q := - (6.5 - (1 # 1125899906842624)) in
  let moves : list Point := [(0, 0); (6.5, 0)] in
  travelled hypot_fix (x0, 0) moves < SPAWN_DIST
  /\ List.length
       (planted (run cos_fix sin_fix hypot_fix lcg plot
                     (Down x0 0 :: moves_of moves) (mounted 800 600)))
     = 2%nat
  /\ ~ hits_exactly hypot_fix 0 (x0, 0) moves.
Proof.
  intros x0 moves. split; [reflexivity|]. split; [reflexivity|].
  vm_compute. intros [_ [[_ [H _]] | [H _]]]; discriminate H.
Qed.

Lemma clear_idempotent_witness :
  let st := run cos_fix sin_fix hypot_fix lcg plot [Down 2 2; Tick]
                (mounted 4 4) in
  branches st <> []
  /\ (exists canvas, canvasRef st = Some canvas
                     /\ Canvas2D.pixels canvas 2%Z 2%Z <> BG)
  /\ branches (clear st) = []
  /\ exists c, canvasRef (clear st) = Some c
               /\ Canvas2D.width c = 4%Z /\ Canvas2D.height c = 4%Z
               /\ all_BG c.
Proof.
  intro st.
  assert (Hb : branches st <> []) by (vm_compute; discriminate).
  assert (Hp : match canvasRef st with
               | Some canvas =>
                   Canvas2D.pixels canvas 2%Z 2%Z <> BG
                   /\ Canvas2D.width canvas = 4%Z
                   /\ Canvas2D.height canvas = 4%Z
               | None => False
               end).
  { vm_compute. split; [discriminate | split; reflexivity]. }
  destruct (canvasRef st) as [canvas|] eqn:Hc; [|destruct Hp].
  destruct Hp as (Hpix & Hw & Hh).
  destruct (proj1 (proj2 (clear_idempotent st)) canvas Hc)
    as (He & c & Hcc & Hcw & Hch & Hbg).
  split; [exact Hb|].
  split; [exists canvas; split; [reflexivity | exact Hpix]|].
  split; [exact He|].
  exists c. split; [exact Hcc|].
  split; [now rewrite Hcw|]. split; [now rewrite Hch | exact Hbg].
Defined.

(** ** The further properties on the sample host *)

Lemma advance_fork_size_witness :
  let kids := children cos_fix sin_fix lcg plot (twig 10) 7 blank (mkHeap 0 []) in
  kids = []
  /\ heap_after cos_fix sin_fix lcg plot (twig 10) 7 blank (mkHeap 0 [])
     = mkHeap 0 [].
Proof.
  intro kids.
  assert (Hk : kids = []) by (vm_compute; reflexivity).
  split; [exact Hk|].
  destruct (advance_fork_size cos_fix sin_fix lcg plot (twig 10) 7 blank
              (mkHeap 0 [])) as (_ & _ & H).
  exact (H Hk).
Defined.

Lemma never_forks_again_witness :
  let b := mkBranch 0 0 0 0 0.01 40 Infinity 0.88 1.5 MAX_DEPTH in
  nextBranchIn b = Infinity
  /\ nextBranchIn (grown cos_fix sin_fix lcg plot 3 b blank (mkHeap 0 []))
     = Infinity
  /\ snd (advance_times cos_fix sin_fix lcg plot 3 b blank (mkHeap 0 []))
     = mkHeap 0 [].
Proof.
  intro b. split; [reflexivity|].
  exact (never_forks_again cos_fix sin_fix lcg plot 3 b blank (mkHeap 0 [])
           eq_refl).
Defined.

Lemma remaining_after_witness :
  let b := twig 10 in
  0 <= remaining b
  /\ remaining (grown cos_fix sin_fix lcg plot 1 b blank (mkHeap 0 []))
     == Qmax 0 (remaining b - inject_Z (Z.of_nat 1) * GROW_SPEED).
Proof.
  intro b.
  assert (H : 0 <= remaining b) by (vm_compute; discriminate).
  split; [exact H|].
  exact (remaining_after cos_fix sin_fix lcg plot 1 b blank (mkHeap 0 []) H).
Defined.

Lemma tick_untouched_witness :
  branches (mounted 4 4) = []
  /\ tick cos_fix sin_fix lcg plot (mounted 4 4) = mounted 4 4.
Proof.
  split; [reflexivity|].
  destruct (tick_untouched cos_fix sin_fix lcg plot (mounted 4 4))
    as (_ & _ & _ & _ & _ & H).
  exact (H eq_refl).
Defined.

Lemma pointer_keeps_witness :
  pointer_event (Down 2 2)
  /\ canvasRef (step cos_fix sin_fix hypot_fix lcg plot (Down 2 2) (mounted 4 4))
     = canvasRef (mounted 4 4).
Proof.
  split; [exact I|].
  exact (proj1 (pointer_keeps cos_fix sin_fix hypot_fix lcg plot (Down 2 2)
                  (mounted 4 4) I)).
Defined.

Lemma moves_after_up_witness :
  let es := [Move 1 1; Up; Move 30 30] in
  Forall idle_event es
  /\ run cos_fix sin_fix hypot_fix lcg plot es (handleUp (mounted 4 4))
     = handleUp (mounted 4 4).
Proof.
  intro es.
  assert (H : Forall idle_event es) by (repeat constructor).
  split; [exact H|].
  exact (moves_after_up cos_fix sin_fix hypot_fix lcg plot es (mounted 4 4) H).
Defined.

Lemma accumulator_bounded_witness :
  (forall a b, 0 <= hypot_fix a b)
  /\ steady (run cos_fix sin_fix hypot_fix lcg plot
               [Down 0 0; Move 5 0; Move 20 0; Move 21 0] (mounted 4 4)).
Proof.
  split; [exact hypot_fix_nonneg|].
  exact (accumulator_bounded cos_fix sin_fix hypot_fix lcg plot 4 4
           [Down 0 0; Move 5 0; Move 20 0; Move 21 0] hypot_fix_nonneg).
Defined.

Lemma resize_keeps_witness :
  let st := mounted 0 5 in
  (exists c, canvasRef st = Some c
             /\ (Canvas2D.width c <= 0 \/ Canvas2D.height c <= 0)%Z)
  /\ onResize blend_fix 8 8 st = st.
Proof.
  intro st.
  destruct (resize_keeps blend_fix 8 8 st) as (_ & _ & _ & _ & _ & _ & H).
  split.
  - eexists. split; [reflexivity|]. left. cbn. lia.
  - apply (H _ eq_refl). left. cbn. lia.
Defined.

Lemma resize_picture_witness :
  let st := mounted 4 4 in
  exists c c',
    canvasRef st = Some c
    /\ (0 < Canvas2D.width c)%Z /\ (0 < Canvas2D.height c)%Z
    /\ canvasRef (onResize blend_fix 6 3 st) = Some c'
    /\ Canvas2D.width c' = 6%Z /\ Canvas2D.height c' = 3%Z
    /\ all_BG c'.
Proof.
  intro st.
  destruct (canvasRef st) as [c|] eqn:Hc; [|discriminate Hc].
  assert (Hw : (0 < Canvas2D.width c)%Z)
    by (injection Hc as <-; reflexivity).
  assert (Hh : (0 < Canvas2D.height c)%Z)
    by (injection Hc as <-; reflexivity).
  assert (Hbg : all_BG c).
  { injection Hc as <-. intros px py Hx Hy.
    cbn [Canvas2D.pixels Canvas2D.fillRect Canvas2D.set_fillStyle
         Canvas2D.with_style Canvas2D.style Canvas2D.fillStyle
         Canvas2D.width Canvas2D.height] in *.
    now rewrite inside_surface. }
  assert (Hst : canvasRef st = Some c) by exact Hc.
  destruct (resize_picture blend_fix 6 3 st c Hst Hw Hh)
    as (c' & H1 & H2 & H3 & _ & H5).
  exists c, c'. repeat split; try assumption. now apply H5.
Defined.

Lemma seed_geometry_witness :
  exists b,
    nth_error (fst (seedCrystal lcg 100 100 (mkHeap 0 []))) 0 = Some b
    /\ 55 <= remaining b /\ remaining b < 125.
Proof.
  destruct (nth_error (fst (seedCrystal lcg 100 100 (mkHeap 0 []))) 0)
    as [b|] eqn:E; [|vm_compute in E; discriminate E].
  exists b. split; [reflexivity|].
  destruct (seed_geometry lcg lcg_range 100 100 (mkHeap 0 []) 0 b E)
    as (_ & _ & H1 & H2 & _).
  split; assumption.
Defined.

Lemma children_geometry_witness :
  let b := twig 20 in
  let kids := children cos_fix sin_fix lcg plot b 7 blank (mkHeap 0 []) in
  kids <> [] /\ Forall (fun c => 2.8 < remaining c) kids.
Proof.
  intros b kids.
  assert (Hk : kids <> []) by (vm_compute; discriminate).
  split; [exact Hk|].
  pose proof (children_geometry cos_fix sin_fix lcg plot lcg_range b 7 blank
                (mkHeap 0 [])) as H.
  eapply Forall_impl; [|exact H].
  intros c (_ & _ & _ & Hc & _). exact Hc.
Defined.

Lemma countdown_rescheduled_witness :
  let b := twig 20 in
  let b' := branch_after cos_fix sin_fix lcg plot b 7 blank (mkHeap 0 []) in
  0 < effective b 7
  /\ children cos_fix sin_fix lcg plot b 7 blank (mkHeap 0 []) <> []
  /\ ((remaining b' <= 14 /\ nextBranchIn b' = Infinity)
      \/ (14 < remaining b'
          /\ exists f, nextBranchIn b' = Fin f
                       /\ 0.34 * remaining b' < f
                       /\ f < 0.71 * remaining b')).
Proof.
  intros b b'.
  assert (Hs : 0 < effective b 7) by reflexivity.
  assert (Hk : children cos_fix sin_fix lcg plot b 7 blank (mkHeap 0 []) <> [])
    by (vm_compute; discriminate).
  split; [exact Hs|]. split; [exact Hk|].
  exact (proj2 (countdown_rescheduled cos_fix sin_fix lcg plot lcg_range b 7
                  blank (mkHeap 0 []) Hs) Hk).
Defined.

Lemma branches_in_ranges_witness :
  Forall in_ranges
    (branches (run cos_fix sin_fix hypot_fix lcg plot
                 [Down 2 2; Tick; Tick; Tick] (mounted 4 4))).
Proof.
  exact (branches_in_ranges cos_fix sin_fix hypot_fix lcg plot lcg_range 4 4
           [Down 2 2; Tick; Tick; Tick]).
Defined.

Lemma tick_draws_each_witness :
  let st := run cos_fix sin_fix hypot_fix lcg plot [Down 2 2; Tick]
                (mounted 4 4) in
  segments (tick cos_fix sin_fix lcg plot st)
  = (segments st + List.length (branches st))%nat.
Proof.
  exact (tick_draws_each cos_fix sin_fix hypot_fix lcg plot lcg_range 4 4
           [Down 2 2; Tick]).
Defined.
